(** * Mock-data generator of the reconciliation engine

    A shallow embedding of [scripts/generate_mock_data.py] and the
    properties of the fixtures it writes.

    Modelling conventions.
    - Python [int]s that count or index are [N]; loop ranges are lists.
    - A Python [float] is the rational ([Q]) it holds; every float
      operation rounds its exact result to the nearest binary64 value
      ([b64]).  A float that was produced by [round(x, 2)] is stored as its
      number of cents (a [Z]); [cents_value] gives the decimal it stands
      for.
    - The ambient [random] module is an explicit stream of raw 53-bit draws
      that every call consumes in program order.
    - [psycopg2] is an abstract sink whose operations may raise.
    - The file system is a set of directories and a finite map from paths
      to the rows written (a row is the list of its fields, before CSV
      quoting); whether it lets a directory be made or a file be opened is
      for the operating system to say.  Console output is not modelled. *)

From Stdlib Require Import ZArith NArith QArith Qround Qabs Qpower Lqa String Ascii
  List Lia.
From stdpp Require Import base option list strings gmap.

Local Open Scope string_scope.
Local Open Scope list_scope.

(* ===================================================================== *)
(** * Decimal rendering of integers *)
(* ===================================================================== *)

Module Decimal.

Definition digit_char (d : N) : ascii := ascii_of_N (48 + d).

Definition char_digit (c : ascii) : option N :=
  let n := N_of_ascii c in
  if ((48 <=? n) && (n <=? 57))%N then Some (n - 48)%N else None.

(** Most significant digit first; [acc] holds the digits already split off. *)
Fixpoint digits_acc (fuel : nat) (n : N) (acc : list N) : list N :=
  match fuel with
  | O => acc
  | S f => if (n <? 10)%N then n :: acc
           else digits_acc f (n / 10)%N ((n mod 10)%N :: acc)
  end.

Definition digits (n : N) : list N :=
  digits_acc (S (N.to_nat (N.log2 n))) n [].

Definition undigits (ds : list N) : N :=
  fold_left (fun a d => (10 * a + d)%N) ds 0%N.

(** [str(n)] for a non-negative integer. *)
Definition str_nat (n : N) : string :=
  string_of_list_ascii (map digit_char (digits n)).

(** [str.zfill]: left-pad with zeros up to width [w]. *)
Definition zfill (w : nat) (s : string) : string :=
  string_of_list_ascii (replicate (w - String.length s) "0"%char) +:+ s.

(** The format spec [{n:0wd}] for a non-negative [n]. *)
Definition format_0d (w : nat) (n : N) : string := zfill w (str_nat n).

(** Reading back a string of decimal digits ([None] on any other char or
    on the empty string). *)
Fixpoint parse_digits_acc (cs : list ascii) (acc : N) : option N :=
  match cs with
  | [] => Some acc
  | c :: cs' =>
      match char_digit c with
      | Some d => parse_digits_acc cs' (10 * acc + d)%N
      | None => None
      end
  end.

Definition parse_nat (s : string) : option N :=
  match list_ascii_of_string s with
  | [] => None
  | cs => parse_digits_acc cs 0%N
  end.

End Decimal.

(* ===================================================================== *)
(** * Floats *)
(* ===================================================================== *)

Definition Qltb (x y : Q) : bool :=
  match (x ?= y)%Q with Lt => true | _ => false end.

(** Rounding to the nearest integer, ties to even: the rounding of both
    [round(x, n)] and the [.nf] format spec. *)
Definition round_half_even (x : Q) : Z :=
  let f := Qfloor x in
  match (x - inject_Z f ?= 1 # 2)%Q with
  | Lt => f
  | Gt => (f + 1)%Z
  | Eq => if Z.even f then f else (f + 1)%Z
  end.

(** [2 ** e] *)
Definition pow2 (e : Z) : Q := (2 ^ e)%Q.

(** For a positive [x], the exponent [l] with [2^l <= x < 2^(l+1)]. *)
Definition floor_log2 (x : Q) : Z :=
  let l := (Z.log2 (Qnum x) - Z.log2 (Z.pos (Qden x)))%Z in
  if Qle_bool (pow2 l) x then l else (l - 1)%Z.

(** The exponent of the last of the 53 bits of the float nearest to [x];
    it stops at -1074, where the subnormal floats lie. *)
Definition ulp_exponent (x : Q) : Z :=
  Z.max (floor_log2 (Qabs x) - 52) (-1074).

(** The binary64 float nearest to [x], ties to the even significand: the
    result of a float operation whose exact result is [x].  The largest
    float is not modelled: no product or sum of the script comes near it,
    and the conversion of a large [int] checks for it (see
    [num_unmatched]). *)
Definition b64 (x : Q) : Q :=
  let e := ulp_exponent x in
  (inject_Z (round_half_even (x / pow2 e)) * pow2 e)%Q.

(** [round(x, 2)], as a number of cents. *)
Definition round_cents (x : Q) : Z := round_half_even (x * 100).

(** The decimal that a number of cents stands for; the float that holds
    it is [b64 (cents_value c)], which [.2f] and [str] print as the same
    cents. *)
Definition cents_value (c : Z) : Q := c # 100.

(** [int(x)]: truncation toward zero. *)
Definition python_int (x : Q) : Z :=
  if Qltb x 0 then Qceiling x else Qfloor x.

(** The format spec [{x:.2f}]. *)
Definition format_2f (x : Q) : string :=
  let c := Z.to_N (round_half_even (Qabs x * 100)) in
  (if Qltb x 0 then "-" else "")
    +:+ Decimal.str_nat (c / 100) +:+ "." +:+ Decimal.format_0d 2 (c mod 100).

(** [str(x)] for a float holding a number of cents: the shortest decimal
    that reads back as the same float, which has one or two fractional
    digits. *)
Definition str_float (c : Z) : string :=
  let a := Z.to_N (Z.abs c) in
  let f := (a mod 100)%N in
  (if (c <? 0)%Z then "-" else "")
    +:+ Decimal.str_nat (a / 100) +:+ "."
    +:+ (if (f mod 10 =? 0)%N then Decimal.str_nat (f / 10)
         else Decimal.format_0d 2 f).

(* ===================================================================== *)
(** * [datetime] *)
(* ===================================================================== *)

(** The script builds its datetimes from [datetime(2024, 1, 1)],
    [datetime(2024, 12, 31)] and [timedelta]s of whole seconds, and of a
    time it reads back it only prints the date: a [datetime] is held to
    the second. *)
Record datetime := mk_datetime {
  dt_year : N; dt_month : N; dt_day : N;
  dt_hour : N; dt_minute : N; dt_second : N
}.

(** [datetime(y, m, d)] *)
Definition datetime_ymd (y m d : N) : datetime := mk_datetime y m d 0 0 0.

Definition is_leap (y : N) : bool :=
  ((y mod 4 =? 0) && (negb (y mod 100 =? 0) || (y mod 400 =? 0)))%N.

Definition days_in_month (y m : N) : N :=
  match m with
  | 2%N => if is_leap y then 29 else 28
  | 4%N | 6%N | 9%N | 11%N => 30
  | _ => 31
  end.

Definition next_day (date : N * N * N) : N * N * N :=
  let '(y, m, d) := date in
  if (d <? days_in_month y m)%N then (y, m, d + 1)%N
  else if (m <? 12)%N then (y, m + 1, 1)%N
  else (y + 1, 1, 1)%N.

Definition days_before_year (y : N) : Z :=
  let p := (Z.of_N y - 1)%Z in (p * 365 + p / 4 - p / 100 + p / 400)%Z.

Definition days_before_month (y m : N) : Z :=
  foldr (fun k acc => (Z.of_N (days_in_month y (N.of_nat k)) + acc)%Z) 0%Z
        (seq 1 (N.to_nat m - 1)).

(** [date.toordinal()] *)
Definition toordinal (dt : datetime) : Z :=
  (days_before_year (dt_year dt) + days_before_month (dt_year dt) (dt_month dt)
   + Z.of_N (dt_day dt))%Z.

Definition second_of_day (dt : datetime) : N :=
  (dt_hour dt * 3600 + dt_minute dt * 60 + dt_second dt)%N.

(** [int((b - a).total_seconds())] *)
Definition seconds_between (a b : datetime) : Z :=
  ((toordinal b - toordinal a) * 86400
   + (Z.of_N (second_of_day b) - Z.of_N (second_of_day a)))%Z.

Definition MAXYEAR : N := 9999.

(** [dt + timedelta(seconds=s)] for [s >= 0]; [None] is [OverflowError]. *)
Definition add_seconds (dt : datetime) (s : N) : option datetime :=
  let t := (second_of_day dt + s)%N in
  let '(y, m, d) :=
    N.iter (t / 86400) next_day (dt_year dt, dt_month dt, dt_day dt) in
  let r := (t mod 86400)%N in
  if (MAXYEAR <? y)%N then None
  else Some (mk_datetime y m d (r / 3600) ((r mod 3600) / 60) (r mod 60)).

(** [dt.strftime("%Y-%m-%d")], the year on four digits. *)
Definition strftime_ymd (dt : datetime) : string :=
  Decimal.format_0d 4 (dt_year dt) +:+ "-"
    +:+ Decimal.format_0d 2 (dt_month dt) +:+ "-"
    +:+ Decimal.format_0d 2 (dt_day dt).

(* ===================================================================== *)
(** * Data model *)
(* ===================================================================== *)

(** [TYPES = ["DEBIT", "CREDIT"]] *)
Inductive tx_type := DEBIT | CREDIT.

Definition TYPES : list tx_type := [DEBIT; CREDIT].

(** The time of a transaction is a [datetime] when it comes from the
    generator and may be an ISO string when it was read back. *)
Inductive tx_time :=
| TimeDT (d : datetime)
| TimeStr (s : string).

(** The tuple [(trx_id, amount, tx_type, tx_time)]; the amount is a float
    rounded to two decimals, held in cents. *)
Record transaction := mk_transaction {
  tx_id : string;
  tx_amount : Z;
  tx_kind : tx_type;
  tx_when : tx_time
}.

(** One CSV row: the list passed to [writer.writerow]. *)
Definition row := list string.

Definition ref_id (r : row) : string := nth 0 r "".
Definition amount_field (r : row) : string := nth 1 r "".
Definition date_field (r : row) : string := nth 2 r "".

Inductive exn :=
| PsycopgError (msg : string)
| ValueError
| IndexError
| ZeroDivisionError
| OverflowError
| FileNotFoundError
| OtherError (msg : string).

(** The calls made on [psycopg2] objects, in the order of the source. *)
Inductive db_request :=
| Connect
| Cursor
| ExecuteDelete
| Commit
| ExecuteBatch (rows : list transaction)
| ExecuteCount
| FetchOne
| CloseCursor
| CloseConnection.

(** What the program needs from outside: the database driver, whose every
    call may raise; [datetime.fromisoformat], which raises [ValueError]
    (here [None]) on a string it cannot read; and the operating system,
    which, given the directories that exist, lets [os.makedirs] and
    [open(path, 'w')] through ([None]) or makes them raise. *)
Class Externals := {
  sink : Type;
  db_call : db_request -> sink -> sink * (exn + Z);
  fromisoformat : string -> option datetime;
  os_makedirs : string -> gset string -> option exn;
  os_open : string -> gset string -> option exn
}.

(** Module-level configuration constants.  The script sets
    [ROWS_PER_BANK = NUM_TRANSACTIONS]; the two are separate fields so that
    the properties can be stated for any values.  [ERROR_RATE] is the
    value the float holds; for the rate [0.05] of the script the decimal
    1/20 decides the same rows, as is proved below. *)
Record config := mk_config {
  OUTPUT_DIR : string;
  NUM_TRANSACTIONS : N;
  NUM_BANK_FILES : N;
  ROWS_PER_BANK : N;
  ERROR_RATE : Q;
  BANKS : list string
}.

Definition default_config : config :=
  {| OUTPUT_DIR := "test/testdata";
     NUM_TRANSACTIONS := 100;
     NUM_BANK_FILES := 1;
     ROWS_PER_BANK := 100;
     ERROR_RATE := 5 # 100;
     BANKS := ["bank_bca"] |}.

(* ===================================================================== *)
(** * The world and the effects of the program *)
(* ===================================================================== *)

Section Program.
Context `{Externals}.

Record world := mk_world {
  w_draws : nat -> N;                 (* the generator's future raw outputs *)
  w_pos : nat;                        (* how many were consumed *)
  w_dirs : gset string;               (* directories that exist *)
  w_files : gmap string (list row);   (* files written *)
  w_sink : sink                       (* the database *)
}.

Definition set_pos (p : nat) (w : world) : world :=
  mk_world (w_draws w) p (w_dirs w) (w_files w) (w_sink w).
Definition set_dirs (d : gset string) (w : world) : world :=
  mk_world (w_draws w) (w_pos w) d (w_files w) (w_sink w).
Definition set_files (f : gmap string (list row)) (w : world) : world :=
  mk_world (w_draws w) (w_pos w) (w_dirs w) f (w_sink w).
Definition set_sink (s : sink) (w : world) : world :=
  mk_world (w_draws w) (w_pos w) (w_dirs w) (w_files w) s.

(** A computation changes the world and returns a value or raises. *)
Definition M (A : Type) : Type := world -> world * (exn + A).

Definition ret {A} (a : A) : M A := fun w => (w, inr a).

Definition raise {A} (e : exn) : M A := fun w => (w, inl e).

(** A step that only computes: it returns or raises, the world is as it
    was. *)
Definition lift {A} (r : exn + A) : M A := fun w => (w, r).

Definition bind {A B} (m : M A) (k : A -> M B) : M B :=
  fun w => match m w with
           | (w', inr a) => k a w'
           | (w', inl e) => (w', inl e)
           end.

(** [try: m  except psycopg2.Error as e: h e] *)
Definition except_psycopg {A} (m : M A) (h : exn -> M A) : M A :=
  fun w => match m w with
           | (w', inl (PsycopgError msg)) => h (PsycopgError msg) w'
           | r => r
           end.

Notation "'let*' x ':=' m 'in' k" := (bind m (fun x => k))
  (at level 10, x pattern, m at level 100, k at level 200).
Notation "m ';;' k" := (bind m (fun _ => k))
  (at level 100, k at level 200, right associativity).

(** ** [random] *)

(** A raw output read as a float in [0, 1): 53 bits over 2^53. *)
Definition unit_draw (k : N) : Q := Z.of_N (k mod 2 ^ 53) # 2 ^ 53.

(** [random.random()] *)
Definition random : M Q :=
  fun w => (set_pos (S (w_pos w)) w, inr (unit_draw (w_draws w (w_pos w)))).

(** [random.uniform(a, b)] is [a + (b - a) * random()], each operation
    rounded. *)
Definition uniform (a b : Q) : M Q :=
  let* r := random in ret (b64 (a + b64 (b64 (b - a) * r))).

(** A uniform integer below [n]. *)
Definition randbelow (n : N) : M N :=
  let* r := random in ret (Z.to_N (Qfloor (r * inject_Z (Z.of_N n)))).

(** [random.randint(a, b)] *)
Definition randint (a b : Z) : M Z :=
  if (b <? a)%Z then raise ValueError
  else let* k := randbelow (Z.to_N (b - a + 1)) in ret (a + Z.of_N k)%Z.

(** [random.choice(seq)] *)
Definition choice {A} (l : list A) : M A :=
  match l with
  | [] => raise IndexError
  | _ => let* k := randbelow (N.of_nat (length l)) in
         match l !! N.to_nat k with
         | Some x => ret x
         | None => raise IndexError
         end
  end.

(** [x[i], x[j] = x[j], x[i]] *)
Definition swap {A} (l : list A) (i j : nat) : list A :=
  match l !! i, l !! j with
  | Some a, Some b => <[j := a]> (<[i := b]> l)
  | _, _ => l
  end.

Fixpoint shuffle_loop {A} (indices : list nat) (l : list A) : M (list A) :=
  match indices with
  | [] => ret l
  | i :: rest => let* j := randbelow (N.of_nat (i + 1)) in
                 shuffle_loop rest (swap l i (N.to_nat j))
  end.

(** [random.shuffle(x)]: for [i] from [len(x) - 1] down to 1, swap [x[i]]
    with a random [x[j]], [j <= i]. *)
Definition shuffle {A} (l : list A) : M (list A) :=
  shuffle_loop (rev (seq 1 (length l - 1))) l.

(** ** Files and the database *)

(** [os.makedirs(path, exist_ok=True)] *)
Definition makedirs (path : string) : M unit :=
  fun w => match os_makedirs path (w_dirs w) with
           | Some e => (w, inl e)
           | None => (set_dirs ({[path]} ∪ w_dirs w) w, inr tt)
           end.

(** [os.path.join(a, b)] on POSIX *)
Definition path_join (a b : string) : string :=
  if String.prefix "/" b then b
  else match String.rev a with
       | "" => b
       | String c _ => if Ascii.eqb c "/" then a +:+ b else a +:+ "/" +:+ b
       end.

(** [open(path, 'w')]: it raises, or the file exists and is empty. *)
Definition open_w (path : string) : M unit :=
  fun w => match os_open path (w_dirs w) with
           | Some e => (w, inl e)
           | None => (set_files (<[path := []]> (w_files w)) w, inr tt)
           end.

(** [writer.writerow(r)] on the writer of the file at [path]. *)
Definition writerow (path : string) (r : row) : M unit :=
  fun w => (set_files (alter (fun rows => rows ++ [r]) path (w_files w)) w,
            inr tt).

(** One call on the driver. *)
Definition db (q : db_request) : M Z :=
  fun w => let '(s, r) := db_call q (w_sink w) in (set_sink s w, r).

(** ** The script *)

Definition get_db_connection : M Z :=
  except_psycopg (db Connect) (fun e => raise e).

Definition generate_transaction_id (index : N) : string :=
  "TRX" +:+ Decimal.format_0d 8 index.

Definition generate_random_amount : M Z :=
  let* u := uniform 10 10000 in ret (round_cents u).

Definition generate_random_datetime (start_date end_date : datetime)
  : M datetime :=
  let* random_seconds := randint 0 (seconds_between start_date end_date) in
  match add_seconds start_date (Z.to_N random_seconds) with
  | Some d => ret d
  | None => raise OverflowError
  end.

(** [range(lo, lo + count)] *)
Definition range_N (lo count : N) : list N :=
  map N.of_nat (seq (N.to_nat lo) (N.to_nat count)).

(** The body of the generation loop. *)
Definition generate_transaction (start_date end_date : datetime) (i : N)
  : M transaction :=
  let trx_id := generate_transaction_id i in
  let* amount := generate_random_amount in
  let* tx_type := choice TYPES in
  let* tx_time := generate_random_datetime start_date end_date in
  ret (mk_transaction trx_id amount tx_type (TimeDT tx_time)).

(** The generation loop: [for i in range(1, NUM_TRANSACTIONS + 1)]. *)
Fixpoint generate_transactions (start_date end_date : datetime)
    (indices : list N) : M (list transaction) :=
  match indices with
  | [] => ret []
  | i :: rest =>
      let* tx := generate_transaction start_date end_date i in
      let* txs := generate_transactions start_date end_date rest in
      ret (tx :: txs)
  end.

Definition create_postgres_transactions (cfg : config)
  : M (list transaction) :=
  makedirs (OUTPUT_DIR cfg);;
  except_psycopg
    (get_db_connection;;
     db Cursor;;
     db ExecuteDelete;;
     db Commit;;
     let start_date := datetime_ymd 2024 1 1 in
     let end_date := datetime_ymd 2024 12 31 in
     let* transactions :=
       generate_transactions start_date end_date
         (range_N 1 (NUM_TRANSACTIONS cfg)) in
     db (ExecuteBatch transactions);;
     db Commit;;
     db ExecuteCount;;
     let* count := db FetchOne in
     db CloseCursor;;
     db CloseConnection;;
     ret transactions)
    (fun e => raise e).

(** The four defects [random.choice] picks from. *)
Inductive error_type :=
| wrong_format_amount
| wrong_format_date
| missing_field
| amount_discrepancy.

Definition error_types : list error_type :=
  [wrong_format_amount; wrong_format_date; missing_field; amount_discrepancy].

(** The counters of one bank file. *)
Record counters := mk_counters {
  rows_written : N;
  error_rows : N;
  matched_rows : N;
  unmatched_rows : N;
  discrepancy_rows : N
}.

Definition zero_counters : counters := mk_counters 0 0 0 0 0.

(** [should_error] and, when set, [error_type]. *)
Definition draw_defect (cfg : config) : M (option error_type) :=
  let* u := random in
  if Qltb u (ERROR_RATE cfg)
  then let* e := choice error_types in ret (Some e)
  else ret None.

(** The row each branch writes.  [amount] is the decimal of the cents of
    the tuple and [b64 amount] the float that holds it; [.2f] prints both
    as the same cents, as is proved below; the sum of the discrepancy is a
    sum of floats. *)
Definition transaction_row (tx : transaction) (date_str : string)
    (defect : option error_type) : M row :=
  let amount := cents_value (tx_amount tx) in
  match defect with
  | Some wrong_format_amount =>
      ret [tx_id tx; "invalid_amount"; date_str]
  | Some wrong_format_date =>
      ret [tx_id tx; str_float (tx_amount tx); "2024-13-45"]
  | Some missing_field =>
      ret [tx_id tx; ""; date_str]
  | Some amount_discrepancy =>
      let* offset := uniform (-100) 100 in
      let discrepancy_amount := b64 (b64 amount + offset) in
      let bank_amount :=
        match tx_kind tx with
        | DEBIT => (- discrepancy_amount)%Q
        | CREDIT => discrepancy_amount
        end in
      ret [tx_id tx; format_2f bank_amount; date_str]
  | None =>
      let bank_amount :=
        match tx_kind tx with
        | DEBIT => (- amount)%Q
        | CREDIT => amount
        end in
      ret [tx_id tx; format_2f bank_amount; date_str]
  end.

(** The counter each branch bumps, then [rows_written += 1]. *)
Definition count_row (defect : option error_type) (c : counters) : counters :=
  let c' :=
    match defect with
    | Some amount_discrepancy =>
        mk_counters (rows_written c) (error_rows c) (matched_rows c)
                    (unmatched_rows c) (discrepancy_rows c + 1)
    | Some _ =>
        mk_counters (rows_written c) (error_rows c + 1) (matched_rows c)
                    (unmatched_rows c) (discrepancy_rows c)
    | None =>
        mk_counters (rows_written c) (error_rows c) (matched_rows c + 1)
                    (unmatched_rows c) (discrepancy_rows c)
    end in
  mk_counters (rows_written c' + 1) (error_rows c') (matched_rows c')
              (unmatched_rows c') (discrepancy_rows c').

(** [tx_datetime]: the time of the transaction as a [datetime]. *)
Definition tx_datetime (t : tx_time) : exn + datetime :=
  match t with
  | TimeStr s => match fromisoformat s with
                 | Some d => inr d
                 | None => inl ValueError
                 end
  | TimeDT d => inr d
  end.

(** One iteration of the loop over [bank_transactions], after the guard. *)
Definition write_transaction (cfg : config) (csv_file : string)
    (tx : transaction) (c : counters) : M counters :=
  let* dt := lift (tx_datetime (tx_when tx)) in
  let date_str := strftime_ymd dt in
  let* defect := draw_defect cfg in
  let* r := transaction_row tx date_str defect in
  writerow csv_file r;;
  ret (count_row defect c).

(** [for ... in bank_transactions], with its [break] guard. *)
Fixpoint write_transactions (cfg : config) (csv_file : string)
    (txs : list transaction) (c : counters) : M counters :=
  match txs with
  | [] => ret c
  | tx :: rest =>
      if (ROWS_PER_BANK cfg <=? rows_written c)%N then ret c
      else let* c' := write_transaction cfg csv_file tx c in
           write_transactions cfg csv_file rest c'
  end.

Definition ascii_upper (c : ascii) : ascii :=
  let n := N_of_ascii c in
  if ((97 <=? n) && (n <=? 122))%N then ascii_of_N (n - 32) else c.

(** [s.upper()] on ASCII text *)
Fixpoint str_upper (s : string) : string :=
  match s with
  | "" => ""
  | String c s' => String (ascii_upper c) (str_upper s')
  end.

Definition fake_trx_id (bank_name : string) (i : N) : string :=
  "BANK_" +:+ str_upper bank_name +:+ "_" +:+ Decimal.format_0d 6 i.

(** One iteration of the loop that adds unmatched bank transactions. *)
Definition write_unmatched (csv_file bank_name : string) (i : N)
    (c : counters) : M counters :=
  let id := fake_trx_id bank_name i in
  let* fake_amount := generate_random_amount in
  let* d := generate_random_datetime (datetime_ymd 2024 1 1)
                                     (datetime_ymd 2024 12 31) in
  let fake_date := strftime_ymd d in
  writerow csv_file [id; format_2f (cents_value fake_amount); fake_date];;
  ret (mk_counters (rows_written c + 1) (error_rows c) (matched_rows c)
                   (unmatched_rows c + 1) (discrepancy_rows c)).

Fixpoint write_unmatched_rows (csv_file bank_name : string)
    (indices : list N) (c : counters) : M counters :=
  match indices with
  | [] => ret c
  | i :: rest =>
      let* c' := write_unmatched csv_file bank_name i c in
      write_unmatched_rows csv_file bank_name rest c'
  end.

(** [int(ROWS_PER_BANK * 0.05)]: the integer is converted to a float,
    which raises [OverflowError] when it rounds to 2^1024 or more; the
    product is a float product. *)
Definition num_unmatched (cfg : config) : exn + N :=
  let rows := b64 (inject_Z (Z.of_N (ROWS_PER_BANK cfg))) in
  if Qle_bool (pow2 1024) rows then inl OverflowError
  else inr (Z.to_N (python_int (b64 (rows * b64 (5 # 100))))).

(** [x[start:end]] for non-negative indices *)
Definition slice {A} (l : list A) (start_idx end_idx : N) : list A :=
  take (N.to_nat end_idx - N.to_nat start_idx) (drop (N.to_nat start_idx) l).

(** [bank_transactions], or [ZeroDivisionError]. *)
Definition bank_transactions (cfg : config) (available : list transaction)
    (bank_index : N) : exn + list transaction :=
  if (NUM_BANK_FILES cfg =? 0)%N then inl ZeroDivisionError
  else
    let start_idx :=
      (bank_index * (N.of_nat (length available) / NUM_BANK_FILES cfg))%N in
    let end_idx := (start_idx + ROWS_PER_BANK cfg)%N in
    inr (slice available start_idx end_idx).

(** The body of the loop over [enumerate(BANKS)]. *)
Definition write_bank_file (cfg : config) (available : list transaction)
    (bank_index : N) (bank_name : string) : M counters :=
  let csv_file := path_join (OUTPUT_DIR cfg) (bank_name +:+ ".csv") in
  open_w csv_file;;
  writerow csv_file ["trx_ref_id"; "amount"; "date"];;
  let* txs := lift (bank_transactions cfg available bank_index) in
  let* c := write_transactions cfg csv_file txs zero_counters in
  let* n := lift (num_unmatched cfg) in
  write_unmatched_rows csv_file bank_name (range_N 0 n) c.

Fixpoint write_bank_files (cfg : config) (available : list transaction)
    (bank_index : N) (banks : list string) : M (list counters) :=
  match banks with
  | [] => ret []
  | bank_name :: rest =>
      let* c := write_bank_file cfg available bank_index bank_name in
      let* cs := write_bank_files cfg available (bank_index + 1) rest in
      ret (c :: cs)
  end.

(** Returns the counters it prints, one record per bank. *)
Definition create_bank_csv_files (cfg : config)
    (system_transactions : list transaction) : M (list counters) :=
  let* available_transactions := shuffle system_transactions in
  write_bank_files cfg available_transactions 0 (BANKS cfg).

(** The process: the final world and the exit status. *)
Definition main (cfg : config) (w : world) : world * Z :=
  match (let* transactions := create_postgres_transactions cfg in
         create_bank_csv_files cfg transactions) w with
  | (w', inr _) => (w', 0%Z)
  | (w', inl _) => (w', 1%Z)
  end.

End Program.

Arguments world : clear implicits.
Arguments M : clear implicits.

(* ===================================================================== *)
(** * Vocabulary of the properties *)
(* ===================================================================== *)

(** The value [random.random()] returns next. *)
Definition next_random `{Externals} (w : world _) : Q :=
  unit_draw (w_draws w (w_pos w)).

(** The world in which [r] was appended to the file at [path]. *)
Definition appended `{Externals} (path : string) (r : row) (w w' : world _)
  : Prop :=
  w_files w' = alter (fun rows => rows ++ [r]) path (w_files w).

(** The sign convention of bank amounts, on cents. *)
Definition bank_cents (k : tx_type) (c : Z) : Z :=
  match k with DEBIT => (- c)%Z | CREDIT => c end.

(** A number of cents written with two fractional digits. *)
Definition cents_text (c : Z) : string :=
  let a := Z.to_N (Z.abs c) in
  (if (c <? 0)%Z then "-" else "")
    +:+ Decimal.str_nat (a / 100) +:+ "." +:+ Decimal.format_0d 2 (a mod 100).

Fixpoint split_at (sep : ascii) (cs : list ascii)
  : option (list ascii * list ascii) :=
  match cs with
  | [] => None
  | c :: rest =>
      if Ascii.eqb c sep then Some ([], rest)
      else match split_at sep rest with
           | Some (a, b) => Some (c :: a, b)
           | None => None
           end
  end.

(** Reading [digits.digits] as a number. *)
Definition parse_unsigned (cs : list ascii) : option Q :=
  match split_at "." cs with
  | Some (ip, fp) =>
      match ip, fp with
      | _ :: _, _ :: _ =>
          match Decimal.parse_digits_acc ip 0, Decimal.parse_digits_acc fp 0 with
          | Some i, Some f =>
              let scale := (10 ^ Pos.of_nat (length fp))%positive in
              Some (Z.of_N (i * Npos scale + f) # scale)
          | _, _ => None
          end
      | _, _ => None
      end
  | None => None
  end.

(** Reading an amount field: an optional minus sign, then a decimal. *)
Definition parse_amount (s : string) : option Q :=
  match list_ascii_of_string s with
  | c :: cs =>
      if Ascii.eqb c "-" then
        match parse_unsigned cs with
        | Some q => Some (- q)%Q
        | None => None
        end
      else parse_unsigned (c :: cs)
  | [] => None
  end.

(** Reading a date field of the shape [dddd-dd-dd]. *)
Definition parse_date (s : string) : option (N * N * N) :=
  match list_ascii_of_string s with
  | [y1; y2; y3; y4; s1; m1; m2; s2; d1; d2] =>
      if Ascii.eqb s1 "-" && Ascii.eqb s2 "-" then
        match Decimal.parse_digits_acc [y1; y2; y3; y4] 0,
              Decimal.parse_digits_acc [m1; m2] 0,
              Decimal.parse_digits_acc [d1; d2] 0 with
        | Some y, Some m, Some d => Some (y, m, d)
        | _, _, _ => None
        end
      else None
  | _ => None
  end.

(** A date of the calendar. *)
Definition valid_date (y m d : N) : bool :=
  ((1 <=? y) && (y <=? MAXYEAR) && (1 <=? m) && (m <=? 12)
   && (1 <=? d) && (d <=? days_in_month y m))%N.

(** What every [datetime] object satisfies. *)
Definition valid_datetime (dt : datetime) : bool :=
  valid_date (dt_year dt) (dt_month dt) (dt_day dt)
  && (dt_hour dt <? 24)%N && (dt_minute dt <? 60)%N && (dt_second dt <? 60)%N.

(** The identifier pattern [{SOURCE}_{seq:06d}]: the source name in upper
    case, an underscore, the sequence number on six digits. *)
Definition source_seq_id (source : string) (seq : N) : string :=
  str_upper source +:+ "_" +:+ Decimal.format_0d 6 seq.

(** Two lists of transactions that share no identifier. *)
Definition disjoint_ids (l1 l2 : list transaction) : Prop :=
  forall id, id ∈ map tx_id l1 -> id ∉ map tx_id l2.

(** What is expected of the transaction generated for sequence number
    [i]. *)
Definition well_formed (i : N) (tx : transaction) : Prop :=
  tx_id tx = "TRX" +:+ Decimal.format_0d 8 i
  /\ (exists u, (10 <= u)%Q /\ (u <= 10000)%Q /\ tx_amount tx = round_cents u)
  /\ (10 <= cents_value (tx_amount tx))%Q
  /\ (cents_value (tx_amount tx) <= 10000)%Q
  /\ (exists d, tx_when tx = TimeDT d /\ valid_datetime d = true).

(** The identifier of the sequence number [i]: [TRX], then the decimal
    digits of [i] behind as many zeros as it takes to make eight
    characters. *)
Definition sequence_id (i : N) (s : string) : Prop :=
  exists ds, s = "TRX" +:+ ds
             /\ Decimal.parse_nat ds = Some i
             /\ String.length ds = Nat.max 8 (String.length (Decimal.str_nat i)).

(** A computation that leaves the files as they are. *)
Definition keeps_files `{Externals} {A} (m : M _ A) : Prop :=
  forall w, w_files (m w).1 = w_files w.

(** A computation that leaves the directories as they are. *)
Definition keeps_dirs `{Externals} {A} (m : M _ A) : Prop :=
  forall w, w_dirs (m w).1 = w_dirs w.

(* ===================================================================== *)
(** * Sample inputs *)
(* ===================================================================== *)

Fixpoint from_slash (cs : list ascii) : list ascii :=
  match cs with
  | [] => []
  | c :: rest => if Ascii.eqb c "/" then cs else from_slash rest
  end.

Fixpoint strip_slashes (cs : list ascii) : list ascii :=
  match cs with
  | [] => []
  | c :: rest => if Ascii.eqb c "/" then strip_slashes rest else cs
  end.

(** [os.path.dirname] on POSIX: what comes before the last slash, without
    its trailing slashes unless it is made of slashes only. *)
Definition dirname (path : string) : string :=
  let head := from_slash (rev (list_ascii_of_string path)) in
  string_of_list_ascii
    (rev (match strip_slashes head with [] => head | stripped => stripped end)).

(** A database that logs the calls it receives, and refuses the call number
    [n] when [fail_at] is [Some n]; and a POSIX file system: [os.makedirs]
    refuses the empty path, [open(path, 'w')] needs the directory of the
    path to exist, unless the path has none. *)
Definition logging_db (fail_at : option nat) : Externals :=
  {| sink := list db_request;
     db_call q s :=
       (s ++ [q],
        match fail_at with
        | Some n => if Nat.eqb (length s) n
                    then inl (PsycopgError "connection refused")
                    else inr 0%Z
        | None => inr 0%Z
        end);
     fromisoformat := fun _ => None;
     os_makedirs path _ :=
       if String.eqb path "" then Some FileNotFoundError else None;
     os_open path dirs :=
       let d := dirname path in
       if String.eqb d "" || bool_decide (d ∈ dirs)
          || bool_decide (d +:+ "/" ∈ dirs)
       then None else Some FileNotFoundError |}.

(** The world before the script runs, on a machine where the output
    directories of the samples exist. *)
Definition init_world (fail_at : option nat) (draws : nat -> N)
  : world (logging_db fail_at) :=
  @mk_world (logging_db fail_at) draws 0 {["out"; "test/testdata"]} ∅ [].

(** The same on a machine without any directory. *)
Definition fresh_world (fail_at : option nat) (draws : nat -> N)
  : world (logging_db fail_at) :=
  @mk_world (logging_db fail_at) draws 0 ∅ ∅ [].

(** The raw output that reads as the float 0.5. *)
Definition half : N := 2 ^ 52.

Definition sample_debit : transaction :=
  mk_transaction "TRX00000001" 12345 DEBIT (TimeDT (datetime_ymd 2024 3 9)).

Definition sample_credit : transaction :=
  mk_transaction "TRX00000002" 50000 CREDIT (TimeDT (datetime_ymd 2024 12 31)).

(** Two banks that each ask for two rows out of a pool of two. *)
Definition two_banks : config :=
  mk_config "out" 2 2 2 (5 # 100) ["bank_a"; "bank_b"].

(** Two banks that each ask for one row out of a pool of two. *)
Definition two_banks_one_row : config :=
  mk_config "out" 2 2 1 (5 # 100) ["bank_a"; "bank_b"].

(** One bank that asks for one row. *)
Definition one_row : config :=
  mk_config "out" 1 1 1 (5 # 100) ["bank_bca"].

(** The bank of the script asking for twenty rows, with an empty pool. *)
Definition twenty_rows : config :=
  mk_config "test/testdata" 0 1 20 (5 # 100) ["bank_bca"].

(** Draws that make the first row defective (0.0 is below the error rate)
    with the second of the four defects (0.25 * 4 = 1). *)
Definition malformed_date_draws (n : nat) : N :=
  match n with 1%nat => 2 ^ 51 | _ => 0 end.


(** A configuration whose [NUM_BANK_FILES] is 0. *)
Definition no_bank_files : config :=
  mk_config "out" 2 0 2 (5 # 100) ["bank_bca"].


(** A configuration whose error rate is 1. *)
Definition all_defective : config :=
  mk_config "out" 2 1 2 1 ["bank_bca"].

(** A transaction whose time is a string that cannot be read. *)
Definition sample_unreadable : transaction :=
  mk_transaction "TRX00000003" 7000 CREDIT (TimeStr "yesterday").

(* ===================================================================== *)
(** * Facts on decimal rendering *)
(* ===================================================================== *)

Lemma list_ascii_app (a b : string) :
  list_ascii_of_string (a +:+ b) = list_ascii_of_string a ++ list_ascii_of_string b.
Proof. induction a as [|c a IH]; simpl; [reflexivity | now rewrite IH]. Qed.

Lemma string_length_list_ascii (s : string) :
  String.length s = length (list_ascii_of_string s).
Proof. induction s as [|c s IH]; simpl; [reflexivity | now rewrite IH]. Qed.

Lemma char_digit_digit_char (d : N) :
  (d < 10)%N -> Decimal.char_digit (Decimal.digit_char d) = Some d.
Proof.
  intros Hd. unfold Decimal.char_digit, Decimal.digit_char.
  rewrite N_ascii_embedding by lia.
  replace ((48 <=? 48 + d)%N && (48 + d <=? 57)%N) with true.
  - f_equal. lia.
  - symmetry. apply andb_true_iff. split; apply N.leb_le; lia.
Qed.

Lemma digit_char_not (d : N) (c : ascii) :
  (d < 10)%N -> Decimal.char_digit c = None -> Decimal.digit_char d <> c.
Proof. intros Hd Hc <-. rewrite char_digit_digit_char in Hc by assumption. discriminate. Qed.

Lemma digits_acc_app (fuel : nat) (n : N) (acc : list N) :
  Decimal.digits_acc fuel n acc = Decimal.digits_acc fuel n [] ++ acc.
Proof.
  revert n acc. induction fuel as [|f IH]; intros n acc; simpl; [reflexivity|].
  destruct (n <? 10)%N; [reflexivity|].
  rewrite (IH _ (_ :: acc)), (IH _ [_]), <- app_assoc. reflexivity.
Qed.

Lemma undigits_snoc (ds : list N) (d : N) :
  Decimal.undigits (ds ++ [d]) = (10 * Decimal.undigits ds + d)%N.
Proof. unfold Decimal.undigits. now rewrite fold_left_app. Qed.

Lemma digits_acc_value (fuel : nat) (n : N) :
  (n < 2 ^ N.of_nat fuel)%N ->
  Decimal.undigits (Decimal.digits_acc fuel n []) = n.
Proof.
  revert n. induction fuel as [|f IH]; intros n Hn.
  - simpl in *. change (2 ^ 0)%N with 1%N in Hn. assert (n = 0%N) as -> by lia. reflexivity.
  - simpl Decimal.digits_acc. destruct (N.ltb_spec n 10) as [Hlt|Hge].
    + unfold Decimal.undigits. simpl. lia.
    + rewrite digits_acc_app, undigits_snoc, IH.
      * pose proof (N.div_mod n 10). lia.
      * rewrite Nat2N.inj_succ, N.pow_succ_r' in Hn.
        apply N.Div0.div_lt_upper_bound. lia.
Qed.

Lemma digits_value (n : N) : Decimal.undigits (Decimal.digits n) = n.
Proof.
  unfold Decimal.digits. apply digits_acc_value.
  destruct n as [|p]; [reflexivity|].
  rewrite Nat2N.inj_succ, N2Nat.id.
  apply N.log2_spec. reflexivity.
Qed.

Lemma digits_acc_lt10 (fuel : nat) (n : N) :
  Forall (fun d => (d < 10)%N) (Decimal.digits_acc fuel n []).
Proof.
  revert n. induction fuel as [|f IH]; intros n; simpl; [constructor|].
  destruct (N.ltb_spec n 10) as [Hlt|Hge].
  - repeat constructor. assumption.
  - rewrite digits_acc_app. apply Forall_app. split; [apply IH|].
    repeat constructor. apply N.mod_lt. lia.
Qed.

Lemma digits_acc_length (fuel k : nat) (n : N) :
  (n < 10 ^ N.of_nat k)%N -> 1 <= k ->
  length (Decimal.digits_acc fuel n []) <= k.
Proof.
  revert n k. induction fuel as [|f IH]; intros n k Hn Hk; simpl; [lia|].
  destruct (N.ltb_spec n 10) as [Hlt|Hge]; [simpl; lia|].
  rewrite digits_acc_app, length_app. simpl.
  destruct k as [|[|k]]; [lia| |].
  - change (10 ^ N.of_nat 1)%N with 10%N in Hn. lia.
  - assert (length (Decimal.digits_acc f (n / 10) []) <= S k); [|lia].
    apply IH; [|lia].
    rewrite (Nat2N.inj_succ (S k)), N.pow_succ_r' in Hn.
    apply N.Div0.div_lt_upper_bound. lia.
Qed.

Lemma digits_nonempty (n : N) : Decimal.digits n <> [].
Proof.
  unfold Decimal.digits. simpl. destruct (n <? 10)%N; [discriminate|].
  rewrite digits_acc_app. intros Hnil. apply app_eq_nil in Hnil as [_ Hnil]. discriminate.
Qed.

Lemma parse_digits_acc_digits (ds : list N) (acc : N) :
  Forall (fun d => (d < 10)%N) ds ->
  Decimal.parse_digits_acc (map Decimal.digit_char ds) acc
  = Some (fold_left (fun a d => (10 * a + d)%N) ds acc).
Proof.
  intros Hds. revert acc. induction Hds as [|d ds Hd _ IH]; intros acc; simpl; [reflexivity|].
  rewrite char_digit_digit_char by assumption. apply IH.
Qed.

Lemma parse_digits_acc_zeros (k : nat) (cs : list ascii) :
  Decimal.parse_digits_acc (replicate k "0"%char ++ cs) 0
  = Decimal.parse_digits_acc cs 0.
Proof. induction k as [|k IH]; simpl; [reflexivity | exact IH]. Qed.

(** The characters of [{n:0wd}]: zeros, then the digits of [n]. *)
Lemma format_0d_chars (w : nat) (n : N) :
  list_ascii_of_string (Decimal.format_0d w n)
  = replicate (w - length (Decimal.digits n)) "0"%char
      ++ map Decimal.digit_char (Decimal.digits n).
Proof.
  unfold Decimal.format_0d, Decimal.zfill, Decimal.str_nat.
  rewrite list_ascii_app, !list_ascii_of_string_of_list_ascii.
  rewrite string_length_list_ascii, list_ascii_of_string_of_list_ascii, length_map.
  reflexivity.
Qed.

Lemma str_nat_chars (n : N) :
  list_ascii_of_string (Decimal.str_nat n) = map Decimal.digit_char (Decimal.digits n).
Proof. unfold Decimal.str_nat. apply list_ascii_of_string_of_list_ascii. Qed.

Lemma parse_digits_format_0d (w : nat) (n : N) :
  Decimal.parse_digits_acc (list_ascii_of_string (Decimal.format_0d w n)) 0 = Some n.
Proof.
  rewrite format_0d_chars, parse_digits_acc_zeros, parse_digits_acc_digits.
  - f_equal. apply digits_value.
  - apply digits_acc_lt10.
Qed.

Lemma parse_digits_str_nat (n : N) :
  Decimal.parse_digits_acc (list_ascii_of_string (Decimal.str_nat n)) 0 = Some n.
Proof.
  rewrite str_nat_chars, parse_digits_acc_digits.
  - f_equal. apply digits_value.
  - apply digits_acc_lt10.
Qed.

(** Reading back [{n:0wd}] gives [n]. *)
Lemma parse_nat_format_0d (w : nat) (n : N) :
  Decimal.parse_nat (Decimal.format_0d w n) = Some n.
Proof.
  unfold Decimal.parse_nat.
  pose proof (parse_digits_format_0d w n) as Hp.
  destruct (list_ascii_of_string (Decimal.format_0d w n)) as [|c cs] eqn:Hcs; [|exact Hp].
  rewrite format_0d_chars in Hcs. apply app_eq_nil in Hcs as [_ Hcs].
  apply map_eq_nil in Hcs. now apply digits_nonempty in Hcs.
Qed.

Lemma format_0d_inj (w : nat) (n m : N) :
  Decimal.format_0d w n = Decimal.format_0d w m -> n = m.
Proof.
  intros Heq. pose proof (parse_nat_format_0d w n) as Hn.
  rewrite Heq, parse_nat_format_0d in Hn. congruence.
Qed.

(** [{n:0wd}] has exactly [w] characters when [n] fits on [w] digits. *)
Lemma format_0d_length (w : nat) (n : N) :
  (n < 10 ^ N.of_nat w)%N -> 1 <= w ->
  String.length (Decimal.format_0d w n) = w.
Proof.
  intros Hn Hw. rewrite string_length_list_ascii, format_0d_chars.
  rewrite length_app, length_replicate, length_map.
  pose proof (digits_acc_length (S (N.to_nat (N.log2 n))) w n Hn Hw) as Hl.
  fold (Decimal.digits n) in Hl. lia.
Qed.

(** [{n:0wd}] is [str(n)] behind the zeros that make it [w] wide. *)
Lemma format_0d_width (w : nat) (n : N) :
  String.length (Decimal.format_0d w n)
  = Nat.max w (String.length (Decimal.str_nat n)).
Proof.
  rewrite !string_length_list_ascii, format_0d_chars, str_nat_chars.
  rewrite length_app, length_replicate, !length_map. lia.
Qed.

Lemma format_0d_all_digits (w : nat) (n : N) :
  Forall (fun c => is_Some (Decimal.char_digit c))
         (list_ascii_of_string (Decimal.format_0d w n)).
Proof.
  rewrite format_0d_chars. apply Forall_app. split.
  - apply Forall_replicate. now exists 0%N.
  - apply Forall_map. eapply Forall_impl; [apply digits_acc_lt10|].
    intros d Hd. simpl. rewrite char_digit_digit_char by assumption. now eexists.
Qed.

Lemma str_nat_all_digits (n : N) :
  Forall (fun c => is_Some (Decimal.char_digit c))
         (list_ascii_of_string (Decimal.str_nat n)).
Proof.
  rewrite str_nat_chars. apply Forall_map. eapply Forall_impl; [apply digits_acc_lt10|].
  intros d Hd. simpl. rewrite char_digit_digit_char by assumption. now eexists.
Qed.

(* ===================================================================== *)
(** * Facts on rounding to cents *)
(* ===================================================================== *)

Lemma Qltb_lt (x y : Q) : Qltb x y = true <-> (x < y)%Q.
Proof.
  unfold Qltb. rewrite Qlt_alt. destruct (x ?= y)%Q; split; congruence.
Qed.

Lemma Qltb_ge (x y : Q) : Qltb x y = false <-> (y <= x)%Q.
Proof.
  rewrite <- not_true_iff_false, Qltb_lt. split.
  - apply Qnot_lt_le.
  - intros Hle Hlt. exact (Qlt_not_le _ _ Hlt Hle).
Qed.

Lemma round_half_even_comp (x y : Q) :
  (x == y)%Q -> round_half_even x = round_half_even y.
Proof.
  intros Hxy. unfold round_half_even.
  rewrite (Qfloor_comp _ _ Hxy).
  assert (Hc : (x - inject_Z (Qfloor y) ?= 1 # 2)%Q
               = (y - inject_Z (Qfloor y) ?= 1 # 2)%Q).
  { apply Qcompare_comp; [rewrite Hxy|]; reflexivity. }
  rewrite Hc. reflexivity.
Qed.

Lemma round_half_even_floor (x : Q) :
  round_half_even x = Qfloor x \/ round_half_even x = (Qfloor x + 1)%Z.
Proof.
  unfold round_half_even.
  destruct (x - inject_Z (Qfloor x) ?= 1 # 2)%Q; [destruct (Z.even _)| |]; auto.
Qed.

Lemma round_half_even_Z (n : Z) : round_half_even (inject_Z n) = n.
Proof.
  unfold round_half_even. rewrite Qfloor_Z.
  assert (Hc : (inject_Z n - inject_Z n ?= 1 # 2)%Q = Lt).
  { rewrite <- Qlt_alt. unfold Qlt, Qminus, Qplus, Qopp, inject_Z. simpl. lia. }
  rewrite Hc. reflexivity.
Qed.

(** Rounding never crosses an integer. *)
Lemma round_half_even_ge (x : Q) (n : Z) :
  (inject_Z n <= x)%Q -> (n <= round_half_even x)%Z.
Proof.
  intros Hn. apply Qfloor_resp_le in Hn. rewrite Qfloor_Z in Hn.
  destruct (round_half_even_floor x) as [-> | ->]; lia.
Qed.

Lemma round_half_even_le (x : Q) (n : Z) :
  (x <= inject_Z n)%Q -> (round_half_even x <= n)%Z.
Proof.
  intros Hn. pose proof (Qfloor_resp_le _ _ Hn) as Hf. rewrite Qfloor_Z in Hf.
  destruct (Z.eq_dec (Qfloor x) n) as [Heq|Hne].
  - assert (Hx : (x == inject_Z n)%Q).
    { apply Qle_antisym; [assumption|]. rewrite <- Heq. apply Qfloor_le. }
    rewrite (round_half_even_comp _ _ Hx), round_half_even_Z. lia.
  - destruct (round_half_even_floor x) as [-> | ->]; lia.
Qed.

Lemma cents_times_100 (c : Z) : (cents_value c * 100 == inject_Z c)%Q.
Proof. unfold cents_value, Qeq, inject_Z. simpl. lia. Qed.

Lemma round_cents_value (c : Z) : round_cents (cents_value c) = c.
Proof.
  unfold round_cents.
  rewrite (round_half_even_comp _ _ (cents_times_100 c)). apply round_half_even_Z.
Qed.

Lemma Qltb_cents_0 (c : Z) : Qltb (cents_value c) 0 = (c <? 0)%Z.
Proof.
  apply eq_true_iff_eq. rewrite Qltb_lt, Z.ltb_lt.
  unfold cents_value, Qlt. simpl. lia.
Qed.

Lemma Qabs_cents (c : Z) : Qabs (cents_value c) = cents_value (Z.abs c).
Proof. reflexivity. Qed.


(** Formatting a number of cents with [.2f] writes these cents. *)
Lemma format_2f_cents (c : Z) : format_2f (cents_value c) = cents_text c.
Proof.
  unfold format_2f, cents_text.
  rewrite Qltb_cents_0, Qabs_cents.
  change (round_half_even (cents_value (Z.abs c) * 100))
    with (round_cents (cents_value (Z.abs c))).
  rewrite round_cents_value. reflexivity.
Qed.

(* ===================================================================== *)
(** * Facts on binary64 rounding *)
(* ===================================================================== *)

Section Binary64.
Local Open Scope Q_scope.

(** ** Powers of two and the exponent of a number *)

Lemma pow2_pos (e : Z) : 0 < pow2 e.
Proof. apply Qpower_0_lt. reflexivity. Qed.

Lemma pow2_plus (a b : Z) : pow2 (a + b) == pow2 a * pow2 b.
Proof. apply Qpower_plus. discriminate. Qed.

Lemma pow2_le (a b : Z) : (a <= b)%Z -> pow2 a <= pow2 b.
Proof. intros Hab. apply Qpower_le_compat_l; [exact Hab | discriminate]. Qed.

Lemma pow2_lt_inv (a b : Z) : pow2 a < pow2 b -> (a < b)%Z.
Proof. intros Hab. apply (Qpower_lt_compat_l_inv 2); [exact Hab | reflexivity]. Qed.

Lemma pow2_Z (e : Z) : (0 <= e)%Z -> pow2 e == inject_Z (2 ^ e).
Proof. intros He. symmetry. apply (Zpower_Qpower 2 e He). Qed.

(** Cancelling a positive factor. *)
Lemma Qmult_lt_cancel (a b c : Q) : 0 < c -> a * c < b * c -> a < b.
Proof. intros Hc H. now apply Qmult_lt_r in H. Qed.

Lemma Qmult_le_cancel (a b c : Q) : 0 < c -> a * c <= b * c -> a <= b.
Proof. intros Hc H. now apply Qmult_le_r in H. Qed.

Lemma Z_log2_bounds (n : Z) :
  (0 < n)%Z -> pow2 (Z.log2 n) <= inject_Z n /\ inject_Z n < pow2 (Z.log2 n + 1).
Proof.
  intros Hn. destruct (Z.log2_spec n Hn) as [Hlo Hhi].
  pose proof (Z.log2_nonneg n) as H0.
  rewrite !pow2_Z by lia. rewrite <- Zle_Qle, <- Zlt_Qlt.
  split; [exact Hlo | exact Hhi].
Qed.

Lemma Q_as_fraction (x : Q) : inject_Z (Qnum x) == x * inject_Z (Z.pos (Qden x)).
Proof. destruct x as [p q]. unfold Qeq, Qmult, inject_Z. simpl. lia. Qed.

(** [floor_log2 x] is the exponent of the power of two at or below [x]. *)
Lemma floor_log2_spec (x : Q) :
  0 < x -> pow2 (floor_log2 x) <= x /\ x < pow2 (floor_log2 x + 1).
Proof.
  intros Hx.
  assert (Hp : (0 < Qnum x)%Z).
  { destruct x as [p q]. unfold Qlt in Hx. simpl in *. lia. }
  destruct (Z_log2_bounds (Qnum x) Hp) as [Hplo Hphi].
  destruct (Z_log2_bounds (Z.pos (Qden x)) ltac:(lia)) as [Hqlo Hqhi].
  rewrite (Q_as_fraction x) in Hplo, Hphi.
  set (lp := Z.log2 (Qnum x)) in *. set (lq := Z.log2 (Z.pos (Qden x))) in *.
  assert (Hup : x < pow2 (lp - lq + 1)).
  { apply (Qmult_lt_cancel _ _ (pow2 lq) (pow2_pos lq)).
    rewrite <- pow2_plus. replace (lp - lq + 1 + lq)%Z with (lp + 1)%Z by lia.
    eapply Qle_lt_trans; [|exact Hphi].
    rewrite !(Qmult_comm x). apply Qmult_le_compat_r; [exact Hqlo|].
    apply Qlt_le_weak, Hx. }
  assert (Hdown : pow2 (lp - lq - 1) <= x).
  { apply (Qmult_le_cancel _ _ (pow2 (lq + 1)) (pow2_pos _)).
    rewrite <- pow2_plus. replace (lp - lq - 1 + (lq + 1))%Z with lp by lia.
    eapply Qle_trans; [exact Hplo|].
    rewrite !(Qmult_comm x). apply Qmult_le_compat_r; [|apply Qlt_le_weak, Hx].
    apply Qlt_le_weak, Hqhi. }
  unfold floor_log2. fold lp lq.
  destruct (Qle_bool (pow2 (lp - lq)) x) eqn:Hb.
  - apply Qle_bool_iff in Hb. split; assumption.
  - split; [exact Hdown|].
    replace (lp - lq - 1 + 1)%Z with (lp - lq)%Z by lia.
    apply Qnot_le_lt. intros Hle. apply Qle_bool_iff in Hle. congruence.
Qed.

(** The exponent is determined by the two bounds. *)
Lemma floor_log2_unique (x : Q) (l : Z) :
  pow2 l <= x -> x < pow2 (l + 1) -> floor_log2 x = l.
Proof.
  intros Hlo Hhi.
  assert (Hx : 0 < x) by (eapply Qlt_le_trans; [apply pow2_pos | exact Hlo]).
  destruct (floor_log2_spec x Hx) as [Hlo' Hhi'].
  assert (H1 : (floor_log2 x < l + 1)%Z).
  { apply pow2_lt_inv. eapply Qle_lt_trans; eassumption. }
  assert (H2 : (l < floor_log2 x + 1)%Z).
  { apply pow2_lt_inv. eapply Qle_lt_trans; eassumption. }
  lia.
Qed.

Lemma floor_log2_comp (x y : Q) : 0 < x -> x == y -> floor_log2 x = floor_log2 y.
Proof.
  intros Hx Hxy. destruct (floor_log2_spec x Hx) as [Hlo Hhi].
  symmetry. apply floor_log2_unique; rewrite <- Hxy; assumption.
Qed.

Lemma floor_log2_mono (x y : Q) :
  0 < x -> x <= y -> (floor_log2 x <= floor_log2 y)%Z.
Proof.
  intros Hx Hxy.
  assert (Hy : 0 < y) by (eapply Qlt_le_trans; eassumption).
  destruct (floor_log2_spec x Hx) as [Hlo _].
  destruct (floor_log2_spec y Hy) as [_ Hhi].
  assert (H1 : (floor_log2 x < floor_log2 y + 1)%Z).
  { apply pow2_lt_inv. eapply Qle_lt_trans; [exact Hlo|].
    eapply Qle_lt_trans; eassumption. }
  lia.
Qed.

(** ** Rounding to the nearest integer keeps the order and the sign *)

Ltac qcompare H :=
  first [apply Qeq_alt in H | apply Qlt_alt in H | apply Qgt_alt in H].

Lemma round_half_even_mono (x y : Q) :
  x <= y -> (round_half_even x <= round_half_even y)%Z.
Proof.
  intros Hxy. pose proof (Qfloor_resp_le _ _ Hxy) as Hf.
  destruct (Z.eq_dec (Qfloor x) (Qfloor y)) as [Heq|Hne].
  - unfold round_half_even. rewrite Heq.
    destruct (x - inject_Z (Qfloor y) ?= 1 # 2) eqn:Hx;
      destruct (y - inject_Z (Qfloor y) ?= 1 # 2) eqn:Hy;
      qcompare Hx; qcompare Hy;
      try destruct (Z.even (Qfloor y)); try lia; exfalso;
      revert Hx Hy; generalize (inject_Z (Qfloor y)); intros F Hx Hy; lra.
  - destruct (round_half_even_floor x) as [-> | ->],
             (round_half_even_floor y) as [-> | ->]; lia.
Qed.

Lemma Qfloor_unique (x : Q) (n : Z) :
  inject_Z n <= x -> x < inject_Z (n + 1) -> Qfloor x = n.
Proof.
  intros Hlo Hhi. apply Qfloor_resp_le in Hlo. rewrite Qfloor_Z in Hlo.
  assert (Hlt : (Qfloor x < n + 1)%Z).
  { rewrite Zlt_Qlt. eapply Qle_lt_trans; [apply Qfloor_le | exact Hhi]. }
  lia.
Qed.

(** Ties go to the even neighbour on both sides of zero. *)
Lemma round_half_even_opp (x : Q) :
  round_half_even (- x) = (- round_half_even x)%Z.
Proof.
  pose proof (Qfloor_le x) as Hlo. pose proof (Qlt_floor x) as Hhi.
  set (f := Qfloor x) in *.
  rewrite inject_Z_plus in Hhi. change (inject_Z 1) with 1 in Hhi.
  destruct (Qeq_dec x (inject_Z f)) as [Hint|Hnint].
  - assert (Hneg : - x == inject_Z (- f)) by (rewrite Hint, inject_Z_opp; reflexivity).
    rewrite (round_half_even_comp _ _ Hint), (round_half_even_comp _ _ Hneg).
    now rewrite !round_half_even_Z.
  - assert (E : inject_Z (- f - 1) == - inject_Z f - 1).
    { unfold Z.sub. rewrite inject_Z_plus, !inject_Z_opp. reflexivity. }
    assert (Hf' : Qfloor (- x) = (- f - 1)%Z).
    { apply Qfloor_unique.
      - rewrite E. revert Hlo Hhi Hnint. generalize (inject_Z f). intros F ? ? ?.
        destruct (Qlt_le_dec F x); [lra|]. exfalso. apply Hnint. lra.
      - replace (- f - 1 + 1)%Z with (- f)%Z by lia. rewrite inject_Z_opp.
        revert Hlo Hhi Hnint. generalize (inject_Z f). intros F ? ? ?.
        destruct (Qlt_le_dec F x); [lra|]. exfalso. apply Hnint. lra. }
    assert (Hev : Z.even (- f - 1) = negb (Z.even f)).
    { rewrite Z.even_sub, Z.even_opp. now destruct (Z.even f). }
    unfold round_half_even. fold f. rewrite Hf', Hev.
    destruct (x - inject_Z f ?= 1 # 2) eqn:Hx;
      destruct (- x - inject_Z (- f - 1) ?= 1 # 2) eqn:Hy;
      qcompare Hx; qcompare Hy; rewrite E in Hy;
      try (destruct (Z.even f); simpl; lia); try lia; exfalso;
      revert Hx Hy; generalize (inject_Z f); intros F Hx Hy; lra.
Qed.

(** ** Rounding to the nearest float *)

Lemma round_half_even_0 (x : Q) : x == 0 -> round_half_even x = 0%Z.
Proof. intros Hx. now rewrite (round_half_even_comp _ _ Hx). Qed.

Lemma b64_0 (x : Q) : x == 0 -> b64 x == 0.
Proof.
  intros Hx. unfold b64. rewrite round_half_even_0; [ring|].
  generalize (pow2 (ulp_exponent x)). intros p. rewrite Hx. unfold Qdiv. ring.
Qed.

Lemma Qabs_gt_0 (x : Q) : ~ x == 0 -> 0 < Qabs x.
Proof.
  intros Hx. destruct (Qlt_le_dec 0 (Qabs x)) as [?|Hle]; [assumption|].
  exfalso. apply Hx. apply Qabs_Qle_condition in Hle. lra.
Qed.

Lemma ulp_exponent_comp (x y : Q) :
  ~ x == 0 -> x == y -> ulp_exponent x = ulp_exponent y.
Proof.
  intros Hx Hxy. unfold ulp_exponent.
  rewrite (floor_log2_comp (Qabs x) (Qabs y)); [reflexivity | | now rewrite Hxy].
  now apply Qabs_gt_0.
Qed.

Lemma ulp_exponent_opp (x : Q) : ulp_exponent (- x) = ulp_exponent x.
Proof.
  destruct x as [p q]. unfold ulp_exponent, Qabs, Qopp. simpl.
  now rewrite Z.abs_opp.
Qed.

Lemma b64_comp (x y : Q) : x == y -> b64 x == b64 y.
Proof.
  intros Hxy. destruct (Qeq_dec x 0) as [H0|Hn0].
  - rewrite (b64_0 x H0), (b64_0 y); [reflexivity | now rewrite <- Hxy].
  - unfold b64. rewrite <- (ulp_exponent_comp x y Hn0 Hxy).
    rewrite (round_half_even_comp (y / _) (x / pow2 (ulp_exponent x)));
      [reflexivity | generalize (pow2 (ulp_exponent x)); intros p; now rewrite Hxy].
Qed.

#[global] Instance b64_wd : Proper (Qeq ==> Qeq) b64.
Proof. intros x y. apply b64_comp. Qed.

Lemma b64_opp (x : Q) : b64 (- x) == - b64 x.
Proof.
  unfold b64. rewrite ulp_exponent_opp.
  rewrite (round_half_even_comp (- x / _) (- (x / pow2 (ulp_exponent x))));
    [|unfold Qdiv; ring].
  rewrite round_half_even_opp, inject_Z_opp. ring.
Qed.

Lemma b64_nonneg (x : Q) : 0 <= x -> 0 <= b64 x.
Proof.
  intros Hx. unfold b64. apply Qmult_le_0_compat; [|apply Qlt_le_weak, pow2_pos].
  change 0 with (inject_Z 0). rewrite <- Zle_Qle. apply round_half_even_ge.
  change (inject_Z 0) with 0. apply Qle_shift_div_l; [apply pow2_pos|].
  now rewrite Qmult_0_l.
Qed.

Lemma b64_nonpos (x : Q) : x <= 0 -> b64 x <= 0.
Proof.
  intros Hx. assert (H : 0 <= b64 (- x)) by (apply b64_nonneg; lra).
  rewrite b64_opp in H. lra.
Qed.

(** A number with at most 53 significant bits, above the smallest
    exponent, is a float. *)
Lemma b64_fix (m j : Z) :
  (Z.abs m < 2 ^ 53)%Z -> (-1074 <= j)%Z ->
  b64 (inject_Z m * pow2 j) == inject_Z m * pow2 j.
Proof.
  intros Hm Hj. destruct (Z.eq_dec m 0%Z) as [->|Hm0].
  - rewrite b64_0; ring.
  - set (x := inject_Z m * pow2 j).
    assert (Hx : ~ x == 0).
    { unfold x. intros H0. apply Qmult_integral in H0. destruct H0 as [H0|H0].
      - apply Hm0. unfold Qeq, inject_Z in H0. simpl in H0. lia.
      - pose proof (pow2_pos j). lra. }
    destruct (floor_log2_spec (Qabs x) (Qabs_gt_0 x Hx)) as [Hlo _].
    assert (Habs : Qabs x == inject_Z (Z.abs m) * pow2 j).
    { unfold x. rewrite Qabs_Qmult, (Qabs_pos (pow2 j)) by apply Qlt_le_weak, pow2_pos.
      apply Qmult_comp; [|reflexivity]. unfold Qabs, inject_Z. reflexivity. }
    assert (Hl : (floor_log2 (Qabs x) < 53 + j)%Z).
    { apply pow2_lt_inv. eapply Qle_lt_trans; [exact Hlo|].
      rewrite Habs, pow2_plus. apply Qmult_lt_r; [apply pow2_pos|].
      rewrite pow2_Z by lia. now rewrite <- Zlt_Qlt. }
    assert (He : (ulp_exponent x <= j)%Z) by (unfold ulp_exponent; lia).
    unfold b64. set (e := ulp_exponent x) in *.
    assert (Hsplit : pow2 j == inject_Z (2 ^ (j - e)) * pow2 e).
    { rewrite <- pow2_Z by lia. rewrite <- pow2_plus.
      now replace (j - e + e)%Z with j by lia. }
    assert (Hq : x / pow2 e == inject_Z (m * 2 ^ (j - e))).
    { unfold x. rewrite Hsplit, inject_Z_mult. field.
      pose proof (pow2_pos e). lra. }
    rewrite (round_half_even_comp _ _ Hq), round_half_even_Z.
    unfold x. rewrite Hsplit, inject_Z_mult. ring.
Qed.

Lemma b64_Z (n : Z) : (Z.abs n < 2 ^ 53)%Z -> b64 (inject_Z n) == inject_Z n.
Proof.
  intros Hn. pose proof (b64_fix n 0 Hn ltac:(lia)) as H.
  change (pow2 0) with 1 in H. now rewrite Qmult_1_r in H.
Qed.

Lemma ulp_exponent_bounds (x : Q) :
  0 < x -> x < pow2 (ulp_exponent x + 53)
           /\ ((-1074 < ulp_exponent x)%Z -> pow2 (ulp_exponent x + 52) <= x).
Proof.
  intros Hx. unfold ulp_exponent.
  assert (Ha : Qabs x == x) by (apply Qabs_pos; lra).
  assert (Hp : 0 < Qabs x) by now rewrite Ha.
  destruct (floor_log2_spec (Qabs x) Hp) as [Hlo Hhi].
  set (l := floor_log2 (Qabs x)) in *. rewrite Ha in Hlo, Hhi.
  split.
  - eapply Qlt_le_trans; [exact Hhi|]. apply pow2_le. lia.
  - intros Hgt. eapply Qle_trans; [|exact Hlo]. apply pow2_le. lia.
Qed.

Lemma b64_mono_pos (x y : Q) : 0 < x -> x <= y -> b64 x <= b64 y.
Proof.
  intros Hx Hxy.
  assert (Hy : 0 < y) by lra.
  assert (Hax : Qabs x == x) by (apply Qabs_pos; lra).
  assert (Hay : Qabs y == y) by (apply Qabs_pos; lra).
  assert (Hexy : (ulp_exponent x <= ulp_exponent y)%Z).
  { unfold ulp_exponent.
    assert (Hm : (floor_log2 (Qabs x) <= floor_log2 (Qabs y))%Z).
    { apply floor_log2_mono; rewrite ?Hax, ?Hay; assumption. }
    lia. }
  destruct (ulp_exponent_bounds x Hx) as [Hxhi _].
  destruct (ulp_exponent_bounds y Hy) as [_ Hylo].
  unfold b64. set (ex := ulp_exponent x) in *. set (ey := ulp_exponent y) in *.
  destruct (Z.eq_dec ex ey) as [Heq|Hne].
  - rewrite Heq. apply Qmult_le_compat_r; [|apply Qlt_le_weak, pow2_pos].
    rewrite <- Zle_Qle. apply round_half_even_mono.
    apply Qmult_le_compat_r; [exact Hxy|].
    apply Qlt_le_weak, Qinv_lt_0_compat, pow2_pos.
  - apply Qle_trans with (pow2 (ex + 53)).
    + rewrite (Z.add_comm ex), pow2_plus.
      apply Qmult_le_compat_r; [|apply Qlt_le_weak, pow2_pos].
      rewrite (pow2_Z 53) by lia. rewrite <- Zle_Qle. apply round_half_even_le.
      rewrite <- (pow2_Z 53) by lia. apply Qle_shift_div_r; [apply pow2_pos|].
      rewrite <- pow2_plus, (Z.add_comm 53). now apply Qlt_le_weak.
    + apply Qle_trans with (pow2 (ey + 52)); [apply pow2_le; lia|].
      rewrite (Z.add_comm ey), pow2_plus.
      apply Qmult_le_compat_r; [|apply Qlt_le_weak, pow2_pos].
      rewrite (pow2_Z 52) by lia. rewrite <- Zle_Qle. apply round_half_even_ge.
      rewrite <- (pow2_Z 52) by lia. apply Qle_shift_div_l; [apply pow2_pos|].
      rewrite <- pow2_plus, (Z.add_comm 52). apply Hylo.
      unfold ey, ex, ulp_exponent in *. lia.
Qed.

(** Rounding to the nearest float keeps the order. *)
Lemma b64_mono (x y : Q) : x <= y -> b64 x <= b64 y.
Proof.
  intros Hxy. destruct (Qlt_le_dec 0 x) as [Hx|Hx].
  - now apply b64_mono_pos.
  - destruct (Qlt_le_dec y 0) as [Hy|Hy].
    + assert (H : b64 (- y) <= b64 (- x)) by (apply b64_mono_pos; lra).
      rewrite !b64_opp in H. lra.
    + apply Qle_trans with 0; [now apply b64_nonpos | now apply b64_nonneg].
Qed.

(** ** The floats of the script *)

Lemma round_half_even_below (x : Q) (n : Z) :
  x < inject_Z n + (1 # 2) -> (round_half_even x <= n)%Z.
Proof.
  intros Hx. pose proof (Qfloor_le x) as Hlo.
  assert (Hf : (Qfloor x < n + 1)%Z).
  { rewrite Zlt_Qlt, inject_Z_plus. change (inject_Z 1) with 1.
    revert Hlo Hx. generalize (inject_Z (Qfloor x)), (inject_Z n). intros F N ? ?. lra. }
  destruct (Z.eq_dec (Qfloor x) n) as [Heq|Hne].
  - unfold round_half_even. rewrite Heq.
    destruct (x - inject_Z n ?= 1 # 2) eqn:Hc; qcompare Hc;
      try destruct (Z.even n); try lia; exfalso;
      revert Hx Hc; generalize (inject_Z n); intros N ? ?; lra.
  - destruct (round_half_even_floor x) as [-> | ->]; lia.
Qed.

Lemma round_half_even_above (x : Q) (n : Z) :
  inject_Z n - (1 # 2) < x -> (n <= round_half_even x)%Z.
Proof.
  intros Hx.
  assert (H : (round_half_even (- x) <= - n)%Z).
  { apply round_half_even_below. rewrite inject_Z_opp.
    revert Hx. generalize (inject_Z n). intros N ?. lra. }
  rewrite round_half_even_opp in H. lia.
Qed.

(** Between two floats, rounding stays between them. *)
Lemma b64_between (x lo hi : Q) :
  b64 lo == lo -> b64 hi == hi -> lo <= x -> x <= hi ->
  lo <= b64 x /\ b64 x <= hi.
Proof.
  intros Hlo Hhi H1 H2. split.
  - rewrite <- Hlo. now apply b64_mono.
  - rewrite <- Hhi. now apply b64_mono.
Qed.

(** The rounding error is below the spacing [2^j] of any grid of floats
    that covers [x]. *)
Lemma b64_grid (x : Q) (j : Z) :
  (-1074 <= j)%Z -> Qabs x <= pow2 (j + 52) ->
  x - pow2 j <= b64 x /\ b64 x <= x + pow2 j.
Proof.
  intros Hj Hx. pose proof (pow2_pos j) as Hp.
  set (m := Qfloor (x / pow2 j)).
  assert (Hxp : x / pow2 j * pow2 j == x) by (field; lra).
  assert (Hlo : inject_Z m * pow2 j <= x).
  { apply Qle_trans with (x / pow2 j * pow2 j); [|rewrite Hxp; apply Qle_refl].
    apply Qmult_le_compat_r; [apply Qfloor_le | lra]. }
  assert (Hhi : x <= inject_Z (m + 1) * pow2 j).
  { apply Qle_trans with (x / pow2 j * pow2 j); [rewrite Hxp; apply Qle_refl|].
    apply Qmult_le_compat_r; [|lra]. apply Qlt_le_weak, Qlt_floor. }
  apply Qabs_Qle_condition in Hx. destruct Hx as [Hx1 Hx2].
  assert (Hq : - inject_Z (2 ^ 52) <= x / pow2 j /\ x / pow2 j <= inject_Z (2 ^ 52)).
  { rewrite <- (pow2_Z 52) by lia. rewrite (Z.add_comm j), pow2_plus in Hx1, Hx2.
    split.
    - apply Qle_shift_div_l; [exact Hp|]. lra.
    - apply Qle_shift_div_r; [exact Hp|]. lra. }
  destruct Hq as [Hq1 Hq2]. rewrite <- inject_Z_opp in Hq1.
  apply Qfloor_resp_le in Hq1, Hq2. rewrite Qfloor_Z in Hq1, Hq2. fold m in Hq1, Hq2.
  destruct (b64_between x (inject_Z m * pow2 j) (inject_Z (m + 1) * pow2 j))
    as [H1 H2]; try assumption; try (apply b64_fix; lia).
  rewrite inject_Z_plus in H2, Hhi. change (inject_Z 1) with 1 in H2, Hhi.
  revert Hlo Hhi H1 H2. generalize (inject_Z m), (pow2 j), (b64 x).
  intros M P B ? ? ? ?. split; lra.
Qed.

(** [a + (b - a) * random()] in floats, for bounds that are floats. *)
Lemma uniform_b64_range (a b r : Q) :
  b64 a == a -> b64 b == b -> b64 (b - a) == b - a ->
  a <= b -> 0 <= r -> r < 1 ->
  a <= b64 (a + b64 (b64 (b - a) * r))
  /\ b64 (a + b64 (b64 (b - a) * r)) <= b.
Proof.
  intros Ha Hb Hd Hab H0 H1.
  assert (Hp : 0 <= b64 ((b - a) * r) /\ b64 ((b - a) * r) <= b - a).
  { apply b64_between; [now apply b64_0 | exact Hd | |].
    - apply Qmult_le_0_compat; lra.
    - nra. }
  assert (E : b64 (b64 (b - a) * r) == b64 ((b - a) * r)).
  { apply b64_comp. now rewrite Hd. }
  apply b64_between; try assumption; rewrite E; lra.
Qed.

(** The same for bounds that are integers, as in [uniform(10.0, 10000.0)]
    and [uniform(-100, 100)]. *)
Lemma uniform_range (a b : Z) (r : Q) :
  (Z.abs a < 2 ^ 53)%Z -> (Z.abs b < 2 ^ 53)%Z -> (a <= b)%Z ->
  (b - a < 2 ^ 53)%Z -> 0 <= r -> r < 1 ->
  inject_Z a <= b64 (inject_Z a + b64 (b64 (inject_Z b - inject_Z a) * r))
  /\ b64 (inject_Z a + b64 (b64 (inject_Z b - inject_Z a) * r)) <= inject_Z b.
Proof.
  intros Ha Hb Hab Hd H0 H1.
  apply uniform_b64_range; try assumption; try (apply b64_Z; assumption).
  - assert (E : inject_Z b - inject_Z a == inject_Z (b - a)).
    { unfold Z.sub. rewrite inject_Z_plus, inject_Z_opp. reflexivity. }
    rewrite (b64_comp _ _ E), E. apply b64_Z. lia.
  - now rewrite <- Zle_Qle.
Qed.

(** The float [0.05]. *)
Lemma b64_0_05 : b64 (5 # 100) == 3602879701896397 # 72057594037927936.
Proof. vm_compute. reflexivity. Qed.

(** Below 2^48 rows the float product [rows * 0.05], truncated, is the
    twentieth part of [rows]. *)
Lemma unmatched_product (rows : N) :
  (rows < 2 ^ 48)%N ->
  python_int (b64 (b64 (inject_Z (Z.of_N rows)) * b64 (5 # 100)))
  = Z.of_N (rows / 20).
Proof.
  intros Hrows.
  assert (Hr : (0 <= Z.of_N rows < 2 ^ 48)%Z).
  { split; [lia|]. change (2 ^ 48)%Z with (Z.of_N (2 ^ 48)). lia. }
  rewrite N2Z.inj_div. change (Z.of_N 20) with 20%Z.
  revert Hr. generalize (Z.of_N rows). clear rows Hrows. intros rows Hr.
  pose proof (Z.div_mod rows 20 ltac:(lia)) as Hdm.
  pose proof (Z.mod_pos_bound rows 20 ltac:(lia)) as Hmod.
  set (n := (rows / 20)%Z) in *. set (f := (rows mod 20)%Z) in *.
  set (P := b64 (inject_Z rows) * b64 (5 # 100)).
  assert (HP : P == inject_Z rows * (3602879701896397 # 72057594037927936)).
  { unfold P. rewrite b64_0_05, b64_Z by lia. reflexivity. }
  destruct (b64_between P (inject_Z n) (inject_Z (32 * n + 31) * pow2 (-5)))
    as [Hlo Hhi].
  - apply b64_Z. lia.
  - apply b64_fix; lia.
  - rewrite HP. unfold Qle, Qmult, inject_Z. simpl. lia.
  - rewrite HP. change (pow2 (-5)) with (1 # 32).
    unfold Qle, Qmult, inject_Z. simpl. lia.
  - change (pow2 (-5)) with (1 # 32) in Hhi.
    assert (Hn : inject_Z (32 * n + 31) * (1 # 32) < inject_Z (n + 1)).
    { unfold Qlt, Qmult, inject_Z. simpl. lia. }
    assert (H0 : 0 <= inject_Z n).
    { change 0 with (inject_Z 0). rewrite <- Zle_Qle. lia. }
    unfold python_int. replace (Qltb (b64 P) 0) with false.
    + apply Qfloor_unique; [exact Hlo | lra].
    + symmetry. apply Qltb_ge. lra.
Qed.

Lemma pow2_lt (a b : Z) : (a < b)%Z -> pow2 a < pow2 b.
Proof. intros Hab. apply Qpower_lt_compat_l; [exact Hab | reflexivity]. Qed.

(** An integer of at most 53 bits is far below the largest float. *)
Lemma b64_Z_finite (n : Z) :
  (Z.abs n < 2 ^ 53)%Z -> Qle_bool (pow2 1024) (b64 (inject_Z n)) = false.
Proof.
  intros Hn. apply not_true_iff_false. intros Hle. apply Qle_bool_iff in Hle.
  rewrite b64_Z in Hle by exact Hn.
  assert (H : inject_Z n < pow2 53).
  { rewrite pow2_Z by lia. rewrite <- Zlt_Qlt. lia. }
  pose proof (pow2_lt 53 1024 ltac:(lia)). lra.
Qed.


#[local] Instance round_half_even_wd : Proper (Qeq ==> eq) round_half_even.
Proof. intros x y. apply round_half_even_comp. Qed.

(** X18. The float that holds a number of cents, up to 1,000,000.00 in
    magnitude, is printed by [.2f] as these cents: writing the amount of
    a row from the decimal or from the float gives the same text. *)
Lemma format_2f_float (c : Z) :
  (Z.abs c <= 100000000)%Z ->
  format_2f (b64 (cents_value c)) = format_2f (cents_value c).
Proof.
  intros Hc. pose proof (cents_times_100 c) as Hv.
  assert (Hp22 : pow2 (-30 + 52) == 4194304) by reflexivity.
  assert (Hp30 : pow2 (-30) == 1 # 1073741824) by reflexivity.
  assert (HC : - (100000000) <= inject_Z c /\ inject_Z c <= 100000000).
  { change (- (100000000)) with (inject_Z (-100000000)).
    change 100000000 with (inject_Z 100000000). rewrite <- !Zle_Qle. lia. }
  destruct (b64_grid (cents_value c) (-30)) as [G1 G2]; [lia| |].
  { rewrite Hp22. apply Qabs_Qle_condition.
    revert Hv HC. generalize (inject_Z c), (cents_value c). intros; lra. }
  rewrite Hp30 in G1, G2.
  assert (Hround : round_half_even (Qabs (b64 (cents_value c)) * 100)
                   = round_half_even (Qabs (cents_value c) * 100)).
  { rewrite Qabs_cents. change (round_half_even (cents_value (Z.abs c) * 100))
      with (round_cents (cents_value (Z.abs c))). rewrite round_cents_value.
    destruct (Z_lt_le_dec c 0) as [Hneg|Hpos].
    - assert (HA : inject_Z (Z.abs c) == - inject_Z c).
      { rewrite <- inject_Z_opp. now rewrite Z.abs_neq by lia. }
      assert (Hx : b64 (cents_value c) <= 0).
      { apply b64_nonpos. unfold cents_value, Qle. simpl. lia. }
      rewrite (Qabs_neg _ Hx).
      apply Z.le_antisymm;
        [apply round_half_even_below | apply round_half_even_above];
        rewrite HA; revert Hv G1 G2;
        generalize (inject_Z c), (cents_value c), (b64 (cents_value c));
        intros; lra.
    - assert (HA : inject_Z (Z.abs c) == inject_Z c) by now rewrite Z.abs_eq.
      assert (Hx : 0 <= b64 (cents_value c)).
      { apply b64_nonneg. unfold cents_value, Qle. simpl. lia. }
      rewrite (Qabs_pos _ Hx).
      apply Z.le_antisymm;
        [apply round_half_even_below | apply round_half_even_above];
        rewrite HA; revert Hv G1 G2;
        generalize (inject_Z c), (cents_value c), (b64 (cents_value c));
        intros; lra. }
  assert (Hsign : Qltb (b64 (cents_value c)) 0 = Qltb (cents_value c) 0).
  { rewrite Qltb_cents_0. apply eq_true_iff_eq. rewrite Qltb_lt, Z.ltb_lt. split.
    - intros Hx. destruct (Z_lt_le_dec c 0) as [?|Hpos]; [assumption|exfalso].
      assert (0 <= b64 (cents_value c)); [|lra].
      apply b64_nonneg. unfold cents_value, Qle. simpl. lia.
    - intros Hneg.
      assert (Hle : inject_Z c <= -1).
      { change (-1) with (inject_Z (-1)). rewrite <- Zle_Qle. lia. }
      revert Hv G2 Hle.
      generalize (inject_Z c), (cents_value c), (b64 (cents_value c)).
      intros; lra. }
  unfold format_2f. now rewrite Hround, Hsign.
Qed.

(** X19. A 53-bit draw is below 1/20 exactly when it is below the float
    written [0.05]: for this rate, holding [ERROR_RATE] as the decimal or
    as the float decides the same rows. *)
Lemma error_rate_float (k : N) :
  Qltb (unit_draw k) (5 # 100) = Qltb (unit_draw k) (b64 (5 # 100)).
Proof.
  apply eq_true_iff_eq. rewrite !Qltb_lt, b64_0_05.
  unfold unit_draw, Qlt. simpl. generalize (Z.of_N (k mod 2 ^ 53)). intros z. lia.
Qed.

End Binary64.

(* ===================================================================== *)
(** * Facts on the random source and on the count of unmatched rows *)
(* ===================================================================== *)

Lemma unit_draw_range (k : N) : (0 <= unit_draw k)%Q /\ (unit_draw k < 1)%Q.
Proof.
  unfold unit_draw, Qle, Qlt. simpl.
  pose proof (N.mod_lt k (2 ^ 53)%N ltac:(discriminate)) as Hlt.
  apply N2Z.inj_lt in Hlt.
  assert (E : Z.pos (2 ^ 53) = Z.of_N (2 ^ 53)) by reflexivity.
  rewrite E. pose proof (N2Z.is_nonneg (k mod 2 ^ 53)) as Hm.
  revert Hlt Hm. generalize (Z.of_N (k mod 2 ^ 53)), (Z.of_N (2 ^ 53)). lia.
Qed.

Lemma scaled_draw_below (r : Q) (n : N) :
  (0 <= r)%Q -> (r < 1)%Q -> (0 < n)%N ->
  (Z.to_N (Qfloor (r * inject_Z (Z.of_N n))) < n)%N.
Proof.
  intros H0 H1 Hn.
  assert (Hlo : (0 <= Qfloor (r * inject_Z (Z.of_N n)))%Z).
  { change 0%Z with (Qfloor (inject_Z 0)). apply Qfloor_resp_le.
    apply Qmult_le_0_compat; [assumption|].
    change 0%Q with (inject_Z 0). rewrite <- Zle_Qle. lia. }
  assert (Hhi : (Qfloor (r * inject_Z (Z.of_N n)) < Z.of_N n)%Z).
  { destruct (Z_lt_le_dec (Qfloor (r * inject_Z (Z.of_N n))) (Z.of_N n)) as [?|Hge];
      [assumption|exfalso].
    assert (Hq : (inject_Z (Z.of_N n) <= r * inject_Z (Z.of_N n))%Q).
    { eapply Qle_trans; [|apply Qfloor_le]. rewrite <- Zle_Qle. exact Hge. }
    assert (Hlt : (r * inject_Z (Z.of_N n) < 1 * inject_Z (Z.of_N n))%Q).
    { apply Qmult_lt_r; [|assumption]. change 0%Q with (inject_Z 0).
      rewrite <- Zlt_Qlt. lia. }
    rewrite Qmult_1_l in Hlt. exact (Qlt_not_le _ _ Hlt Hq). }
  lia.
Qed.

(** The floor of the exact product [rows * 0.05]. *)
Lemma floor_twentieth (rows : N) :
  Z.to_N (Qfloor (inject_Z (Z.of_N rows) * (5 # 100))) = (rows / 20)%N.
Proof.
  unfold Qfloor, Qmult, inject_Z. simpl.
  change (Z.pos (1 * 100)) with (5 * 20)%Z.
  rewrite (Z.mul_comm _ 5), Z.div_mul_cancel_l by lia.
  rewrite <- (N2Z.id (rows / 20)), N2Z.inj_div. reflexivity.
Qed.

(** Below 2^48 rows, [int(ROWS_PER_BANK * 0.05)] does not overflow and is
    the floor of the exact product. *)
Lemma num_unmatched_small (cfg : config) :
  (ROWS_PER_BANK cfg < 2 ^ 48)%N ->
  num_unmatched cfg = inr (ROWS_PER_BANK cfg / 20)%N.
Proof.
  intros Hrows. unfold num_unmatched.
  assert (Hr : (Z.abs (Z.of_N (ROWS_PER_BANK cfg)) < 2 ^ 53)%Z).
  { change (2 ^ 53)%Z with (Z.of_N (2 ^ 53)). lia. }
  rewrite (b64_Z_finite _ Hr), unmatched_product by exact Hrows.
  now rewrite N2Z.id.
Qed.

(* ===================================================================== *)
(** * Facts on the effects *)
(* ===================================================================== *)

Create HintDb files discriminated.

Section Effects.
Context `{Externals}.

Lemma bind_run {A B} (m : M _ A) (k : A -> M _ B) (w w' : world _) (a : A) :
  m w = (w', inr a) -> bind m k w = k a w'.
Proof. intros Hm. unfold bind. now rewrite Hm. Qed.

Lemma bind_raise {A B} (m : M _ A) (k : A -> M _ B) (w w' : world _) (e : exn) :
  m w = (w', inl e) -> bind m k w = (w', inl e).
Proof. intros Hm. unfold bind. now rewrite Hm. Qed.

Lemma keeps_files_ret {A} (a : A) : keeps_files (ret a).
Proof. intros w. reflexivity. Qed.

Lemma keeps_files_raise {A} (e : exn) : keeps_files (@raise _ A e).
Proof. intros w. reflexivity. Qed.

Lemma keeps_files_lift {A} (r : exn + A) : keeps_files (lift r).
Proof. intros w. reflexivity. Qed.

Lemma keeps_files_bind {A B} (m : M _ A) (k : A -> M _ B) :
  keeps_files m -> (forall a, keeps_files (k a)) -> keeps_files (bind m k).
Proof.
  intros Hm Hk w. unfold bind. specialize (Hm w).
  destruct (m w) as [w1 [e|a]]; simpl in *; [assumption|].
  rewrite Hk. assumption.
Qed.

Lemma keeps_files_except {A} (m : M _ A) (h : exn -> M _ A) :
  keeps_files m -> (forall e, keeps_files (h e)) -> keeps_files (except_psycopg m h).
Proof.
  intros Hm Hh w. unfold except_psycopg. specialize (Hm w).
  destruct (m w) as [w1 [[]|a]]; simpl in *; try assumption.
  rewrite Hh. assumption.
Qed.

Lemma keeps_files_random : keeps_files random.
Proof. intros w. reflexivity. Qed.

Lemma keeps_files_db (q : db_request) : keeps_files (db q).
Proof. intros w. unfold db. destruct (db_call q (w_sink w)). reflexivity. Qed.

Lemma keeps_files_makedirs (p : string) : keeps_files (makedirs p).
Proof.
  intros w. unfold makedirs. destruct (os_makedirs p (w_dirs w)); reflexivity.
Qed.

Hint Resolve keeps_files_ret keeps_files_raise keeps_files_lift
  keeps_files_random keeps_files_db keeps_files_makedirs : files.

Ltac keeps :=
  repeat first
    [ progress auto with files
    | apply keeps_files_bind; [|intros ?]
    | apply keeps_files_except; [|intros ?] ].

Lemma keeps_files_uniform (a b : Q) : keeps_files (uniform a b).
Proof. unfold uniform. keeps. Qed.

Lemma keeps_files_randbelow (n : N) : keeps_files (randbelow n).
Proof. unfold randbelow. keeps. Qed.

Hint Resolve keeps_files_uniform keeps_files_randbelow : files.

Lemma keeps_files_randint (a b : Z) : keeps_files (randint a b).
Proof. unfold randint. destruct (b <? a)%Z; keeps. Qed.

Lemma keeps_files_choice {A} (l : list A) : keeps_files (choice l).
Proof.
  unfold choice. destruct l; keeps. destruct (_ !! _); keeps.
Qed.

Hint Resolve keeps_files_randint keeps_files_choice : files.

Lemma keeps_files_amount : keeps_files generate_random_amount.
Proof. unfold generate_random_amount. keeps. Qed.

Lemma keeps_files_datetime (a b : datetime) :
  keeps_files (generate_random_datetime a b).
Proof. unfold generate_random_datetime. keeps. destruct (add_seconds _ _); keeps. Qed.

Hint Resolve keeps_files_amount keeps_files_datetime : files.

Lemma keeps_files_generate (a b : datetime) (indices : list N) :
  keeps_files (generate_transactions a b indices).
Proof.
  induction indices as [|i rest IH]; simpl; keeps.
Qed.

Hint Resolve keeps_files_generate : files.

(** Persisting the authoritative dataset writes no file. *)
Lemma keeps_files_postgres (cfg : config) :
  keeps_files (create_postgres_transactions cfg).
Proof. unfold create_postgres_transactions, get_db_connection. keeps. Qed.

Lemma keeps_files_draw_defect (cfg : config) : keeps_files (draw_defect cfg).
Proof. unfold draw_defect. keeps. destruct (Qltb _ _); keeps. Qed.

Lemma keeps_files_row (tx : transaction) (d : string) (defect : option error_type) :
  keeps_files (transaction_row tx d defect).
Proof. unfold transaction_row. destruct defect as [[]|]; keeps. Qed.

(** ** What the calls on the operating system return *)

Lemma makedirs_run (p : string) (w : world _) :
  os_makedirs p (w_dirs w) = None ->
  makedirs p w = (set_dirs ({[p]} ∪ w_dirs w) w, inr tt).
Proof. intros Hos. unfold makedirs. now rewrite Hos. Qed.


Lemma open_w_run (p : string) (w : world _) :
  os_open p (w_dirs w) = None ->
  open_w p w = (set_files (<[p := []]> (w_files w)) w, inr tt).
Proof. intros Hos. unfold open_w. now rewrite Hos. Qed.

Lemma open_w_raise (p : string) (w : world _) (e : exn) :
  os_open p (w_dirs w) = Some e -> open_w p w = (w, inl e).
Proof. intros Hos. unfold open_w. now rewrite Hos. Qed.

(** ** What the random calls return *)

Lemma random_run (w : world _) :
  random w = (set_pos (S (w_pos w)) w, inr (next_random w)).
Proof. reflexivity. Qed.


Lemma next_random_range (w : world _) :
  (0 <= next_random w)%Q /\ (next_random w < 1)%Q.
Proof. apply unit_draw_range. Qed.

Lemma randbelow_run (n : N) (w : world _) :
  (0 < n)%N ->
  exists k, (k < n)%N /\ randbelow n w = (set_pos (S (w_pos w)) w, inr k).
Proof.
  intros Hn. eexists. split; [|reflexivity].
  destruct (next_random_range w). now apply scaled_draw_below.
Qed.

Lemma choice_run {A} (l : list A) (w : world _) :
  l <> [] ->
  exists x, x ∈ l /\ choice l w = (set_pos (S (w_pos w)) w, inr x).
Proof.
  intros Hl. destruct l as [|a l]; [congruence|].
  unfold choice. destruct (randbelow_run (N.of_nat (length (a :: l))) w) as (k & Hk & Hrun).
  { simpl. lia. }
  rewrite (bind_run _ _ _ _ _ Hrun).
  destruct (lookup_lt_is_Some_2 (a :: l) (N.to_nat k)) as [x Hx]; [lia|].
  rewrite Hx. exists x. split; [|reflexivity].
  eapply list_elem_of_lookup_2. exact Hx.
Qed.

End Effects.

(** ** Only [os.makedirs] changes the directories *)

Create HintDb dirs discriminated.

Section Directories.
Context `{Externals}.

Lemma keeps_dirs_ret {A} (a : A) : keeps_dirs (ret a).
Proof. intros w. reflexivity. Qed.

Lemma keeps_dirs_raise {A} (e : exn) : keeps_dirs (@raise _ A e).
Proof. intros w. reflexivity. Qed.

Lemma keeps_dirs_lift {A} (r : exn + A) : keeps_dirs (lift r).
Proof. intros w. reflexivity. Qed.

Lemma keeps_dirs_bind {A B} (m : M _ A) (k : A -> M _ B) :
  keeps_dirs m -> (forall a, keeps_dirs (k a)) -> keeps_dirs (bind m k).
Proof.
  intros Hm Hk w. unfold bind. specialize (Hm w).
  destruct (m w) as [w1 [e|a]]; simpl in *; [assumption|].
  rewrite Hk. assumption.
Qed.

Lemma keeps_dirs_random : keeps_dirs random.
Proof. intros w. reflexivity. Qed.

Lemma keeps_dirs_open_w (p : string) : keeps_dirs (open_w p).
Proof. intros w. unfold open_w. destruct (os_open p (w_dirs w)); reflexivity. Qed.

Lemma keeps_dirs_writerow (p : string) (r : row) : keeps_dirs (writerow p r).
Proof. intros w. reflexivity. Qed.

Hint Resolve keeps_dirs_ret keeps_dirs_raise keeps_dirs_lift
  keeps_dirs_random keeps_dirs_open_w keeps_dirs_writerow : dirs.

Ltac keeps_dirs :=
  repeat first
    [ progress auto with dirs
    | apply keeps_dirs_bind; [|intros ?] ].

Lemma keeps_dirs_uniform (a b : Q) : keeps_dirs (uniform a b).
Proof. unfold uniform. keeps_dirs. Qed.

Lemma keeps_dirs_randbelow (n : N) : keeps_dirs (randbelow n).
Proof. unfold randbelow. keeps_dirs. Qed.

Hint Resolve keeps_dirs_uniform keeps_dirs_randbelow : dirs.

Lemma keeps_dirs_randint (a b : Z) : keeps_dirs (randint a b).
Proof. unfold randint. destruct (b <? a)%Z; keeps_dirs. Qed.

Lemma keeps_dirs_choice {A} (l : list A) : keeps_dirs (choice l).
Proof.
  unfold choice. destruct l; keeps_dirs. destruct (_ !! _); keeps_dirs.
Qed.

Hint Resolve keeps_dirs_randint keeps_dirs_choice : dirs.

Lemma keeps_dirs_amount : keeps_dirs generate_random_amount.
Proof. unfold generate_random_amount. keeps_dirs. Qed.

Lemma keeps_dirs_datetime (a b : datetime) :
  keeps_dirs (generate_random_datetime a b).
Proof.
  unfold generate_random_datetime. keeps_dirs. destruct (add_seconds _ _); keeps_dirs.
Qed.

Hint Resolve keeps_dirs_amount keeps_dirs_datetime : dirs.

Lemma keeps_dirs_shuffle {A} (l : list A) : keeps_dirs (shuffle l).
Proof.
  unfold shuffle. generalize (rev (seq 1 (length l - 1))) as indices.
  intros indices. revert l. induction indices as [|i rest IH]; intros l; simpl;
    keeps_dirs.
Qed.

Lemma keeps_dirs_write_transaction (cfg : config) (csv : string)
    (tx : transaction) (c : counters) :
  keeps_dirs (write_transaction cfg csv tx c).
Proof.
  unfold write_transaction, draw_defect, transaction_row. keeps_dirs.
  all: try (destruct (Qltb _ _); keeps_dirs).
  all: try (match goal with d : option error_type |- _ => destruct d as [[]|] end;
            keeps_dirs).
Qed.

Hint Resolve keeps_dirs_write_transaction : dirs.

Lemma keeps_dirs_write_transactions (cfg : config) (csv : string)
    (txs : list transaction) (c : counters) :
  keeps_dirs (write_transactions cfg csv txs c).
Proof.
  revert c. induction txs as [|tx rest IH]; intros c; simpl; keeps_dirs.
  destruct (_ <=? _)%N; keeps_dirs.
Qed.

Lemma keeps_dirs_write_unmatched_rows (csv bank : string) (indices : list N)
    (c : counters) :
  keeps_dirs (write_unmatched_rows csv bank indices c).
Proof.
  revert c. induction indices as [|i rest IH]; intros c; simpl; keeps_dirs.
Qed.

Hint Resolve keeps_dirs_write_transactions keeps_dirs_write_unmatched_rows
  : dirs.

(** Writing the file of a bank makes no directory. *)
Lemma keeps_dirs_write_bank_file (cfg : config) (available : list transaction)
    (i : N) (bank : string) :
  keeps_dirs (write_bank_file cfg available i bank).
Proof. unfold write_bank_file. keeps_dirs. Qed.

End Directories.

(* ===================================================================== *)
(** * The rows derived from transactions *)
(* ===================================================================== *)

Section Rows.
Context `{Externals}.

(** One iteration, once the time, the defect and the row are known. *)
Lemma write_transaction_run (cfg : config) (csv : string) (tx : transaction)
    (c : counters) (w w1 w2 : world _) (dt : datetime)
    (defect : option error_type) (r : row) :
  tx_datetime (tx_when tx) = inr dt ->
  draw_defect cfg w = (w1, inr defect) ->
  transaction_row tx (strftime_ymd dt) defect w1 = (w2, inr r) ->
  exists w', write_transaction cfg csv tx c w = (w', inr (count_row defect c))
             /\ appended csv r w w'.
Proof.
  intros Hdt Hd Hr. unfold write_transaction, appended.
  rewrite Hdt. unfold lift at 1. unfold bind at 1.
  rewrite (bind_run _ _ _ _ _ Hd), (bind_run _ _ _ _ _ Hr).
  eexists. split; [reflexivity|]. simpl.
  pose proof (keeps_files_draw_defect cfg w) as K1. rewrite Hd in K1.
  pose proof (keeps_files_row tx (strftime_ymd dt) defect w1) as K2. rewrite Hr in K2.
  simpl in K1, K2. now rewrite K2, K1.
Qed.

(** An unreadable time stops the iteration before anything is drawn or
    written. *)
Lemma write_transaction_raise (cfg : config) (csv : string) (tx : transaction)
    (c : counters) (w : world _) (e : exn) :
  tx_datetime (tx_when tx) = inl e ->
  write_transaction cfg csv tx c w = (w, inl e).
Proof. intros Hdt. unfold write_transaction. now rewrite Hdt. Qed.

(** The draw of the defect always returns; it returns no defect exactly
    when the random value is not below the error rate. *)
Lemma draw_defect_run (cfg : config) (w : world _) :
  exists w1 defect,
    draw_defect cfg w = (w1, inr defect)
    /\ (defect = None <-> Qltb (next_random w) (ERROR_RATE cfg) = false).
Proof.
  unfold draw_defect. rewrite (bind_run _ _ _ _ _ (random_run w)).
  destruct (Qltb (next_random w) (ERROR_RATE cfg)).
  - destruct (choice_run error_types (set_pos (S (w_pos w)) w)) as (e & _ & He);
      [discriminate|].
    rewrite (bind_run _ _ _ _ _ He). do 2 eexists. split; [reflexivity|].
    split; discriminate.
  - do 2 eexists. split; [reflexivity|]. split; reflexivity.
Qed.

(** Every branch returns a row of three fields whose first is the id. *)
Lemma transaction_row_run (tx : transaction) (d : string)
    (defect : option error_type) (w : world _) :
  exists w2 r, transaction_row tx d defect w = (w2, inr r)
               /\ ref_id r = tx_id tx /\ length r = 3.
Proof.
  unfold transaction_row. destruct defect as [[]|];
    try (do 2 eexists; split; [reflexivity | split; reflexivity]).
Qed.

Lemma alter_app_nil (csv : string) (m : gmap string (list row)) :
  m = alter (fun rows => rows ++ []) csv m.
Proof.
  symmetry. apply alter_id. intros rows _. apply app_nil_r.
Qed.

(** The two ways an iteration can end. *)
Lemma write_transaction_cases (cfg : config) (csv : string)
    (tx : transaction) (c : counters) (w : world _) :
  (exists e, write_transaction cfg csv tx c w = (w, inl e))
  \/ (exists w' defect r,
        write_transaction cfg csv tx c w = (w', inr (count_row defect c))
        /\ appended csv r w w'
        /\ ref_id r = tx_id tx).
Proof.
  destruct (tx_datetime (tx_when tx)) as [e|dt] eqn:Hdt.
  - left. exists e. now apply write_transaction_raise.
  - right. destruct (draw_defect_run cfg w) as (w1 & defect & Hd & _).
    destruct (transaction_row_run tx (strftime_ymd dt) defect w1)
      as (w2 & r & Hr & Hid & _).
    destruct (write_transaction_run cfg csv tx c w w1 w2 dt defect r Hdt Hd Hr)
      as (w' & Hrun & Happ).
    exists w', defect, r. auto.
Qed.

(** The rows the loop appends, in order, carry the ids of the
    transactions it went through. *)
Lemma write_transactions_rows (cfg : config) (csv : string)
    (txs : list transaction) (c : counters) (w : world _) :
  exists w' res rs,
    write_transactions cfg csv txs c w = (w', res)
    /\ w_files w' = alter (fun rows => rows ++ rs) csv (w_files w)
    /\ Forall2 (fun tx r => ref_id r = tx_id tx) (take (length rs) txs) rs.
Proof.
  revert c w. induction txs as [|tx rest IH]; intros c w; simpl.
  - exists w, (inr c), []. split; [reflexivity|].
    split; [apply alter_app_nil | constructor].
  - destruct (ROWS_PER_BANK cfg <=? rows_written c)%N.
    + exists w, (inr c), []. split; [reflexivity|].
      split; [apply alter_app_nil | constructor].
    + destruct (write_transaction_cases cfg csv tx c w)
        as [(e & Hrun) | (w1 & defect & r & Hrun & Happ & Hid)].
      * rewrite (bind_raise _ _ _ _ _ Hrun).
        exists w, (inl e), []. split; [reflexivity|].
        split; [apply alter_app_nil | constructor].
      * rewrite (bind_run _ _ _ _ _ Hrun).
        destruct (IH (count_row defect c) w1) as (w' & res & rs & Hrest & Hfiles & Hids).
        exists w', res, (r :: rs). split; [exact Hrest|]. split.
        -- rewrite Hfiles, Happ, alter_alter_eq. apply alter_ext.
           intros rows _. simpl. now rewrite <- app_assoc.
        -- simpl. now constructor.
Qed.


(** C4. Every row derived from a transaction, whatever its category,
    carries the id of the transaction as its [ref_id]: an iteration of the
    loop over the bank's transactions either stops on an unreadable time,
    writing nothing, or appends one row whose first field is the id. *)
Theorem ref_id_is_transaction_id (cfg : config) (csv : string)
    (tx : transaction) (c : counters) (w : world _) :
  match tx_datetime (tx_when tx) with
  | inl e => write_transaction cfg csv tx c w = (w, inl e)
  | inr _ =>
      exists w' defect r,
        write_transaction cfg csv tx c w = (w', inr (count_row defect c))
        /\ appended csv r w w'
        /\ ref_id r = tx_id tx
  end.
Proof.
  destruct (tx_datetime (tx_when tx)) as [e|dt] eqn:Hdt.
  - now apply write_transaction_raise.
  - destruct (draw_defect_run cfg w) as (w1 & defect & Hd & _).
    destruct (transaction_row_run tx (strftime_ymd dt) defect w1)
      as (w2 & r & Hr & Hid & _).
    destruct (write_transaction_run cfg csv tx c w w1 w2 dt defect r Hdt Hd Hr)
      as (w' & Hrun & Happ).
    exists w', defect, r. auto.
Qed.

(** C10. A row given the wrong-date defect has the fixed text
    ["2024-13-45"] as its date, whatever the transaction, the bank and the
    state of the random source. *)
Theorem malformed_date_is_constant (cfg : config) (csv : string)
    (tx : transaction) (c : counters) (w w1 : world _) (dt : datetime) :
  tx_datetime (tx_when tx) = inr dt ->
  draw_defect cfg w = (w1, inr (Some wrong_format_date)) ->
  exists w' r,
    write_transaction cfg csv tx c w
    = (w', inr (count_row (Some wrong_format_date) c))
    /\ appended csv r w w'
    /\ date_field r = "2024-13-45".
Proof.
  intros Hdt Hd.
  destruct (write_transaction_run cfg csv tx c w w1 w1 dt (Some wrong_format_date)
              [tx_id tx; str_float (tx_amount tx); "2024-13-45"] Hdt Hd eq_refl)
    as (w' & Hrun & Happ).
  exists w'. eexists. split; [exact Hrun|]. split; [exact Happ|reflexivity].
Qed.

(** In that branch the amount is written as [str(amount)]: the amount of
    the transaction itself, without the sign of its type. *)
Lemma malformed_date_amount (cfg : config) (csv : string)
    (tx : transaction) (c : counters) (w w1 : world _) (dt : datetime) :
  tx_datetime (tx_when tx) = inr dt ->
  draw_defect cfg w = (w1, inr (Some wrong_format_date)) ->
  exists w' r,
    write_transaction cfg csv tx c w
    = (w', inr (count_row (Some wrong_format_date) c))
    /\ appended csv r w w'
    /\ amount_field r = str_float (tx_amount tx).
Proof.
  intros Hdt Hd.
  destruct (write_transaction_run cfg csv tx c w w1 w1 dt (Some wrong_format_date)
              [tx_id tx; str_float (tx_amount tx); "2024-13-45"] Hdt Hd eq_refl)
    as (w' & Hrun & Happ).
  exists w'. eexists. split; [exact Hrun|]. split; [exact Happ|reflexivity].
Qed.


End Rows.

(* ===================================================================== *)
(** * Calendar facts *)
(* ===================================================================== *)

Lemma days_in_month_ge (y m : N) : (28 <= days_in_month y m)%N.
Proof.
  unfold days_in_month.
  repeat match goal with
         | |- context [match ?x with _ => _ end] => destruct x
         end; lia.
Qed.

Lemma next_day_ok (y m d : N) :
  (1 <= m <= 12)%N ->
  let '(y', m', d') := next_day (y, m, d) in
  (y <= y' <= y + 1)%N /\ (1 <= m' <= 12)%N
  /\ ((1 <= d)%N -> (1 <= d' <= days_in_month y' m')%N).
Proof.
  intros Hm. unfold next_day.
  destruct (N.ltb_spec d (days_in_month y m)); [|destruct (N.ltb_spec m 12)].
  - repeat split; lia.
  - pose proof (days_in_month_ge y (m + 1)). repeat split; lia.
  - pose proof (days_in_month_ge (y + 1) 1). repeat split; lia.
Qed.

Lemma iter_next_day_ok (n y m d : N) :
  (1 <= m <= 12)%N -> (1 <= d <= days_in_month y m)%N ->
  let '(y', m', d') := N.iter n next_day (y, m, d) in
  (y <= y' <= y + n)%N /\ (1 <= m' <= 12)%N
  /\ (1 <= d' <= days_in_month y' m')%N.
Proof.
  intros Hm Hd. induction n as [|n IH] using N.peano_ind.
  - simpl. repeat split; lia.
  - rewrite N.iter_succ.
    destruct (N.iter n next_day (y, m, d)) as [[y1 m1] d1].
    destruct IH as (Hy1 & Hm1 & Hd1).
    pose proof (next_day_ok y1 m1 d1 Hm1) as Hn.
    destruct (next_day (y1, m1, d1)) as [[y2 m2] d2].
    destruct Hn as (Hy2 & Hm2 & Hd2). repeat split; try lia; apply Hd2; lia.
Qed.

(** Adding seconds to a valid [datetime] gives a valid [datetime] as long
    as the year stays in range. *)
Lemma add_seconds_valid (dt : datetime) (s : N) :
  valid_datetime dt = true ->
  (dt_year dt + (second_of_day dt + s) / 86400 <= MAXYEAR)%N ->
  exists d, add_seconds dt s = Some d /\ valid_datetime d = true.
Proof.
  unfold valid_datetime, valid_date. rewrite !andb_true_iff, !N.leb_le, !N.ltb_lt.
  intros Hv Hyear. destruct_and!.
  unfold add_seconds.
  pose proof (iter_next_day_ok ((second_of_day dt + s) / 86400)
                (dt_year dt) (dt_month dt) (dt_day dt)
                ltac:(lia) ltac:(lia)) as Hit.
  destruct (N.iter _ next_day _) as [[y m] d].
  destruct Hit as (Hy & Hm & Hd).
  destruct (N.ltb_spec MAXYEAR y) as [Hlt|Hle]; [lia|].
  eexists. split; [reflexivity|].
  unfold valid_datetime, valid_date. simpl.
  rewrite !andb_true_iff, !N.leb_le, !N.ltb_lt.
  pose proof (N.mod_lt (second_of_day dt + s) 86400 ltac:(discriminate)) as Hr.
  set (r := ((second_of_day dt + s) mod 86400)%N) in *.
  repeat split; try lia.
  - apply N.Div0.div_lt_upper_bound. lia.
  - apply N.Div0.div_lt_upper_bound. pose proof (N.mod_lt r 3600). lia.
  - apply N.mod_lt. discriminate.
Qed.

(* ===================================================================== *)
(** * The unmatched rows *)
(* ===================================================================== *)

Section Unmatched.
Context `{Externals}.

Lemma generate_random_amount_run (w : world _) :
  generate_random_amount w
  = (set_pos (S (w_pos w)) w,
     inr (round_cents (b64 (10 + b64 (b64 (10000 - 10) * next_random w))))).
Proof. reflexivity. Qed.

(** The amount is drawn in [10, 10000] and rounded to cents. *)
Lemma random_amount_range (r : Q) :
  (0 <= r)%Q -> (r < 1)%Q ->
  let u := b64 (10 + b64 (b64 (10000 - 10) * r)) in
  (10 <= u)%Q /\ (u <= 10000)%Q.
Proof.
  intros H0 H1. apply (uniform_range 10 10000 r); try assumption; lia.
Qed.

(** Within the window of the script the random time always exists. *)
Lemma generate_random_datetime_run (w : world _) :
  exists d,
    generate_random_datetime (datetime_ymd 2024 1 1) (datetime_ymd 2024 12 31) w
    = (set_pos (S (w_pos w)) w, inr d)
    /\ valid_datetime d = true.
Proof.
  unfold generate_random_datetime.
  change (seconds_between _ _) with 31536000%Z.
  unfold randint. change (31536000 <? 0)%Z with false. cbv iota.
  destruct (randbelow_run (Z.to_N (31536000 - 0 + 1)) w) as (k & Hk & Hrun);
    [reflexivity|].
  change (Z.to_N (31536000 - 0 + 1)) with 31536001%N in Hk.
  rewrite (bind_run _ _ _ _ _ (bind_run _ _ _ _ _ Hrun)).
  unfold ret at 1. rewrite Z.add_0_l, N2Z.id.
  destruct (add_seconds_valid (datetime_ymd 2024 1 1) k) as (d & Hd & Hv);
    [reflexivity| |].
  - change (second_of_day (datetime_ymd 2024 1 1)) with 0%N.
    change (dt_year (datetime_ymd 2024 1 1)) with 2024%N. unfold MAXYEAR.
    rewrite N.add_0_l.
    assert (k / 86400 < 366)%N; [|lia].
    apply N.Div0.div_lt_upper_bound. lia.
  - rewrite Hd. exists d. split; [reflexivity | exact Hv].
Qed.

Lemma write_unmatched_run (csv bank : string) (i : N) (c : counters)
    (w : world _) :
  exists w' c' cents d,
    write_unmatched csv bank i c w = (w', inr c')
    /\ appended csv [fake_trx_id bank i; format_2f (cents_value cents);
                     strftime_ymd d] w w'
    /\ unmatched_rows c' = (unmatched_rows c + 1)%N.
Proof.
  unfold write_unmatched.
  rewrite (bind_run _ _ _ _ _ (generate_random_amount_run w)).
  destruct (generate_random_datetime_run (set_pos (S (w_pos w)) w)) as (d & Hd & _).
  rewrite (bind_run _ _ _ _ _ Hd).
  do 4 eexists. split; [reflexivity|]. split; reflexivity.
Qed.

(** The loop appends one row per index, each with the id made for it. *)
Lemma write_unmatched_rows_run (csv bank : string) (indices : list N)
    (c : counters) (w : world _) :
  exists w' c' rs,
    write_unmatched_rows csv bank indices c w = (w', inr c')
    /\ w_files w' = alter (fun rows => rows ++ rs) csv (w_files w)
    /\ map ref_id rs = map (fake_trx_id bank) indices
    /\ unmatched_rows c' = (unmatched_rows c + N.of_nat (length indices))%N.
Proof.
  revert c w. induction indices as [|i rest IH]; intros c w; simpl.
  - exists w, c, []. split; [reflexivity|]. split; [|split; [reflexivity|lia]].
    rewrite <- (alter_id (fun rows => rows ++ []) (w_files w) csv) at 1;
      [reflexivity|]. intros rows _. apply app_nil_r.
  - destruct (write_unmatched_run csv bank i c w) as (w1 & c1 & cents & d & Hrun & Happ & Hc1).
    rewrite (bind_run _ _ _ _ _ Hrun).
    destruct (IH c1 w1) as (w' & c' & rs & Hrest & Hfiles & Hids & Hc').
    exists w', c', ([fake_trx_id bank i; format_2f (cents_value cents);
                     strftime_ymd d] :: rs).
    split; [exact Hrest|]. split; [|split].
    + rewrite Hfiles, Happ, alter_alter_eq. apply alter_ext.
      intros rows _. simpl. now rewrite <- app_assoc.
    + simpl. now rewrite Hids.
    + rewrite Hc', Hc1. lia.
Qed.

Lemma fake_id_not_transaction_id (bank : string) (i index : N) :
  fake_trx_id bank i <> generate_transaction_id index.
Proof. unfold fake_trx_id, generate_transaction_id. simpl. discriminate. Qed.

(** C6, as the code has it. The id of an unmatched row is the fixed text
    [BANK_], the bank name in upper case, an underscore, and the sequence
    number zero-padded to six digits. *)
Theorem unmatched_ref_id_format (csv bank : string) (i : N) (c : counters)
    (w : world _) :
  exists w' c' r,
    write_unmatched csv bank i c w = (w', inr c')
    /\ appended csv r w w'
    /\ ref_id r
       = "BANK_" +:+ str_upper bank +:+ "_" +:+ Decimal.format_0d 6 i.
Proof.
  destruct (write_unmatched_run csv bank i c w) as (w' & c' & cents & d & Hrun & Happ & _).
  exists w', c'. eexists. split; [exact Hrun|]. split; [exact Happ|reflexivity].
Qed.

End Unmatched.

(* ===================================================================== *)
(** * The file of a bank *)
(* ===================================================================== *)

Section BankFile.
Context `{Externals}.

(** When the file of a bank is written to the end it holds the header,
    then rows carrying the ids of the bank's transactions in order, then
    the unmatched rows with the ids made for them. *)
Lemma write_bank_file_rows (cfg : config) (available : list transaction)
    (i : N) (bank : string) (w w' : world _) (c : counters) :
  write_bank_file cfg available i bank w = (w', inr c) ->
  exists txs rs us,
    bank_transactions cfg available i = inr txs
    /\ w_files w' !! path_join (OUTPUT_DIR cfg) (bank +:+ ".csv")
       = Some (["trx_ref_id"; "amount"; "date"] :: rs ++ us)
    /\ Forall2 (fun tx r => ref_id r = tx_id tx) (take (length rs) txs) rs
    /\ exists n, num_unmatched cfg = inr n
                 /\ map ref_id us = map (fake_trx_id bank) (range_N 0 n).
Proof.
  unfold write_bank_file. set (csv := path_join _ _).
  destruct (open_w csv w) as [w0 [e|[]]] eqn:Hopen;
    [rewrite (bind_raise _ _ _ _ _ Hopen); discriminate|].
  rewrite (bind_run _ _ _ _ _ Hopen).
  unfold open_w in Hopen. destruct (os_open csv (w_dirs w)); [discriminate|].
  injection Hopen as <-.
  set (w0 := set_files _ w).
  rewrite (bind_run (writerow csv _) _ w0 _ tt eq_refl).
  set (w1 := set_files _ w0).
  destruct (bank_transactions cfg available i) as [e|txs] eqn:Htxs;
    [discriminate|].
  unfold lift at 1. unfold bind at 1.
  destruct (write_transactions_rows cfg csv txs zero_counters w1)
    as (w2 & res & rs & Hrun & Hfiles & Hids).
  destruct res as [e|c2]; [rewrite (bind_raise _ _ _ _ _ Hrun); discriminate|].
  rewrite (bind_run _ _ _ _ _ Hrun).
  destruct (num_unmatched cfg) as [e|n]; [discriminate|].
  unfold lift at 1. unfold bind at 1.
  destruct (write_unmatched_rows_run csv bank (range_N 0 n) c2 w2)
    as (w3 & c3 & us & Hrun' & Hfiles' & Hus & _).
  rewrite Hrun'. intros [= <- <-].
  exists txs, rs, us. split; [reflexivity|]. split; [|split; [assumption|]].
  - rewrite Hfiles', Hfiles. subst w1 w0. simpl.
    rewrite !lookup_alter_eq, lookup_insert_eq. reflexivity.
  - exists n. split; [reflexivity | exact Hus].
Qed.

End BankFile.

(* ===================================================================== *)
(** * Shuffling and the partition into banks *)
(* ===================================================================== *)

Lemma swap_Permutation {A} (l : list A) (i j : nat) : swap l i j ≡ₚ l.
Proof.
  unfold swap. destruct (l !! i) as [a|] eqn:Hi; [|reflexivity].
  destruct (l !! j) as [b|] eqn:Hj; [|reflexivity].
  now apply Permutation_insert_swap.
Qed.

(** Two windows of a list that do not meet share no key when the keys of
    the list are all different. *)
Lemma windows_disjoint {A B} (f : A -> B) (l : list A) (a b n m : nat) :
  NoDup (map f l) -> a + n <= b ->
  forall y, y ∈ map f (take n (drop a l)) -> y ∉ map f (take m (drop b l)).
Proof.
  intros Hnd Hab y Hy1 Hy2.
  apply list_elem_of_fmap in Hy1 as (x1 & -> & Hx1).
  apply list_elem_of_fmap in Hy2 as (x2 & Heq & Hx2).
  apply elem_of_take in Hx1 as (k1 & Hk1 & Hlt1).
  apply elem_of_take in Hx2 as (k2 & Hk2 & _).
  rewrite lookup_drop in Hk1, Hk2.
  assert (H1 : map f l !! (a + k1) = Some (f x1)).
  { change (map f l) with (f <$> l). now rewrite list_lookup_fmap, Hk1. }
  assert (H2 : map f l !! (b + k2) = Some (f x1)).
  { change (map f l) with (f <$> l). rewrite list_lookup_fmap, Hk2. simpl. now rewrite Heq. }
  pose proof (NoDup_lookup _ _ _ _ Hnd H1 H2). lia.
Qed.

Lemma slice_window {A} (l : list A) (s n : N) :
  slice l s (s + n) = take (N.to_nat n) (drop (N.to_nat s) l).
Proof. unfold slice. f_equal. lia. Qed.

Section Partition.
Context `{Externals}.

Lemma shuffle_loop_run {A} (indices : list nat) (l : list A) (w : world _) :
  exists w' l', shuffle_loop indices l w = (w', inr l') /\ l' ≡ₚ l.
Proof.
  revert l w. induction indices as [|i rest IH]; intros l w; simpl.
  - exists w, l. split; reflexivity.
  - destruct (randbelow_run (N.of_nat (i + 1)) w) as (j & _ & Hj); [lia|].
    rewrite (bind_run _ _ _ _ _ Hj).
    destruct (IH (swap l i (N.to_nat j)) (set_pos (S (w_pos w)) w))
      as (w' & l' & Hrun & Hperm).
    exists w', l'. split; [exact Hrun|].
    rewrite Hperm. apply swap_Permutation.
Qed.

(** [random.shuffle] always returns, with a rearrangement of its input. *)
Lemma shuffle_run {A} (l : list A) (w : world _) :
  exists w' l', shuffle l w = (w', inr l') /\ l' ≡ₚ l.
Proof. apply shuffle_loop_run. Qed.

Lemma bank_transactions_window (cfg : config) (available : list transaction)
    (i : N) :
  (0 < NUM_BANK_FILES cfg)%N ->
  bank_transactions cfg available i
  = inr (take (N.to_nat (ROWS_PER_BANK cfg))
           (drop (N.to_nat
                    (i * (N.of_nat (length available) / NUM_BANK_FILES cfg)))
                 available)).
Proof.
  intros Hn. unfold bank_transactions.
  destruct (N.eqb_spec (NUM_BANK_FILES cfg) 0) as [H0|_]; [lia|].
  now rewrite slice_window.
Qed.

(** C3, as the code has it. When the ids of the transactions are all
    different and the rows asked per bank do not exceed the stride
    [total // NUM_BANK_FILES], the windows of two different banks in the
    shuffled list share no transaction id. *)
Theorem partition_disjoint (cfg : config) (txs : list transaction)
    (w : world _) :
  NoDup (map tx_id txs) ->
  (0 < NUM_BANK_FILES cfg)%N ->
  (ROWS_PER_BANK cfg <= N.of_nat (length txs) / NUM_BANK_FILES cfg)%N ->
  exists w' available,
    shuffle txs w = (w', inr available)
    /\ available ≡ₚ txs
    /\ forall i j : N, i <> j ->
       exists ti tj,
         bank_transactions cfg available i = inr ti
         /\ bank_transactions cfg available j = inr tj
         /\ disjoint_ids ti tj.
Proof.
  intros Hnd Hn Hrows.
  destruct (shuffle_run txs w) as (w' & available & Hrun & Hperm).
  exists w', available. split; [exact Hrun|]. split; [exact Hperm|].
  intros i j Hij.
  rewrite !bank_transactions_window by assumption.
  do 2 eexists. split; [reflexivity|]. split; [reflexivity|].
  assert (Hnd' : NoDup (map tx_id available)).
  { change (map tx_id) with (fmap (M:=list) tx_id) in *. now rewrite Hperm. }
  assert (Hlen : length available = length txs) by now rewrite Hperm.
  rewrite Hlen. set (q := (N.of_nat (length txs) / NUM_BANK_FILES cfg)%N) in *.
  unfold disjoint_ids.
  destruct (N.lt_ge_cases i j) as [Hlt|Hge].
  - apply windows_disjoint; [exact Hnd'|]. nia.
  - intros id H1 H2.
    assert (Hle : N.to_nat (j * q) + N.to_nat (ROWS_PER_BANK cfg)
                  <= N.to_nat (i * q)) by nia.
    exact (windows_disjoint tx_id available _ _ _ _ Hnd' Hle id H2 H1).
Qed.

End Partition.

(* ===================================================================== *)
(** * Generating the transactions *)
(* ===================================================================== *)

Lemma generate_transaction_id_inj (i j : N) :
  generate_transaction_id i = generate_transaction_id j -> i = j.
Proof.
  unfold generate_transaction_id. simpl. intros Heq.
  injection Heq as Heq. now apply format_0d_inj in Heq.
Qed.

Lemma range_N_NoDup (lo count : N) : NoDup (range_N lo count).
Proof.
  unfold range_N. apply (NoDup_fmap_2 N.of_nat), NoDup_seq.
Qed.

Lemma range_N_length (lo count : N) : length (range_N lo count) = N.to_nat count.
Proof. unfold range_N. now rewrite length_map, length_seq. Qed.

(** An amount drawn in [10, 10000] and rounded to cents stays in range. *)
Lemma round_cents_range (u : Q) :
  (10 <= u)%Q -> (u <= 10000)%Q ->
  (1000 <= round_cents u <= 1000000)%Z.
Proof.
  intros Hlo Hhi. unfold round_cents. split.
  - apply round_half_even_ge. change (inject_Z 1000) with (10 * 100)%Q.
    apply Qmult_le_compat_r; [exact Hlo | discriminate].
  - apply round_half_even_le. change (inject_Z 1000000) with (10000 * 100)%Q.
    apply Qmult_le_compat_r; [exact Hhi | discriminate].
Qed.

Lemma cents_value_range (c : Z) :
  (1000 <= c <= 1000000)%Z ->
  (10 <= cents_value c)%Q /\ (cents_value c <= 10000)%Q.
Proof. intros Hc. unfold cents_value, Qle. simpl. lia. Qed.

Section Generation.
Context `{Externals}.

Lemma generate_transaction_run (i : N) (w : world _) :
  exists tx,
    generate_transaction (datetime_ymd 2024 1 1) (datetime_ymd 2024 12 31) i w
    = (set_pos (3 + w_pos w) w, inr tx)
    /\ well_formed i tx.
Proof.
  unfold generate_transaction.
  rewrite (bind_run _ _ _ _ _ (generate_random_amount_run w)).
  destruct (choice_run TYPES (set_pos (S (w_pos w)) w)) as (k & _ & Hk);
    [discriminate|].
  rewrite (bind_run _ _ _ _ _ Hk).
  destruct (generate_random_datetime_run
              (set_pos (S (w_pos (set_pos (S (w_pos w)) w)))
                       (set_pos (S (w_pos w)) w)))
    as (d & Hd & Hv).
  rewrite (bind_run _ _ _ _ _ Hd).
  eexists. split; [reflexivity|]. unfold well_formed. simpl.
  destruct (next_random_range w) as [H0 H1].
  destruct (random_amount_range (next_random w) H0 H1) as [Hlo Hhi].
  split; [reflexivity|]. split; [eauto|].
  split; [|split; [|eauto]];
    apply cents_value_range, round_cents_range; assumption.
Qed.

Lemma well_formed_ids (indices : list N) (txs : list transaction) :
  Forall2 well_formed indices txs ->
  map tx_id txs = map generate_transaction_id indices.
Proof.
  induction 1 as [|i tx indices txs (Hid & _) _ IH]; simpl; [reflexivity|].
  now rewrite Hid, IH.
Qed.

Lemma except_psycopg_run {A} (m : M _ A) (h : exn -> M _ A)
    (w w' : world _) (a : A) :
  m w = (w', inr a) -> except_psycopg m h w = (w', inr a).
Proof. intros Hm. unfold except_psycopg. now rewrite Hm. Qed.

Lemma db_run (q : db_request) (w : world _) :
  (forall q s, exists s' z, db_call q s = (s', inr z)) ->
  exists s' z, db q w = (set_sink s' w, inr z).
Proof.
  intros Hdb. destruct (Hdb q (w_sink w)) as (s' & z & Hq).
  exists s', z. unfold db. now rewrite Hq.
Qed.

(** The generation loop only moves the random source forward. *)
Lemma generate_transactions_world (indices : list N) (w : world _) :
  exists k txs,
    generate_transactions (datetime_ymd 2024 1 1) (datetime_ymd 2024 12 31)
                          indices w
    = (set_pos k w, inr txs)
    /\ Forall2 well_formed indices txs.
Proof.
  revert w. induction indices as [|i rest IH]; intros w; simpl.
  - exists (w_pos w), []. split; [now destruct w | constructor].
  - destruct (generate_transaction_run i w) as (tx & Htx & Hwf).
    rewrite (bind_run _ _ _ _ _ Htx).
    destruct (IH (set_pos (3 + w_pos w) w)) as (k & txs & Hrun & Hall).
    rewrite (bind_run _ _ _ _ _ Hrun).
    exists k, (tx :: txs). split; [reflexivity | now constructor].
Qed.

Lemma well_formed_readable (indices : list N) (txs : list transaction) :
  Forall2 well_formed indices txs ->
  Forall (fun tx => exists dt, tx_datetime (tx_when tx) = inr dt) txs.
Proof.
  induction 1 as [|i tx indices txs (_ & _ & _ & _ & d & Hd & _) _ IH];
    constructor; [|exact IH].
  exists d. now rewrite Hd.
Qed.

(** With a directory that can be made and a database that accepts every
    call, [create_postgres_transactions] returns the list the generation
    loop built. *)
Lemma create_postgres_transactions_run (cfg : config) (w : world _) :
  os_makedirs (OUTPUT_DIR cfg) (w_dirs w) = None ->
  (forall q s, exists s' z, db_call q s = (s', inr z)) ->
  exists w' txs,
    create_postgres_transactions cfg w = (w', inr txs)
    /\ Forall2 well_formed (range_N 1 (NUM_TRANSACTIONS cfg)) txs
    /\ w_dirs w' = {[OUTPUT_DIR cfg]} ∪ w_dirs w.
Proof.
  intros Hmk Hdb. unfold create_postgres_transactions, get_db_connection.
  rewrite (bind_run _ _ _ _ _ (makedirs_run _ w Hmk)).
  set (wa := set_dirs _ w).
  destruct (db_run Connect wa Hdb) as (s1 & z1 & E1).
  destruct (db_run Cursor (set_sink s1 wa) Hdb) as (s2 & z2 & E2).
  destruct (db_run ExecuteDelete (set_sink s2 (set_sink s1 wa)) Hdb) as (s3 & z3 & E3).
  destruct (db_run Commit (set_sink s3 (set_sink s2 (set_sink s1 wa))) Hdb)
    as (s4 & z4 & E4).
  set (w0 := set_sink s4 _) in E4.
  destruct (generate_transactions_world (range_N 1 (NUM_TRANSACTIONS cfg)) w0)
    as (k & txs & Hgen & Hwf).
  set (w1 := set_pos k w0) in Hgen.
  destruct (db_run (ExecuteBatch txs) w1 Hdb) as (s5 & z5 & E5).
  destruct (db_run Commit (set_sink s5 w1) Hdb) as (s6 & z6 & E6).
  destruct (db_run ExecuteCount (set_sink s6 (set_sink s5 w1)) Hdb) as (s7 & z7 & E7).
  destruct (db_run FetchOne (set_sink s7 (set_sink s6 (set_sink s5 w1))) Hdb)
    as (s8 & z8 & E8).
  destruct (db_run CloseCursor
              (set_sink s8 (set_sink s7 (set_sink s6 (set_sink s5 w1)))) Hdb)
    as (s9 & z9 & E9).
  destruct (db_run CloseConnection
              (set_sink s9 (set_sink s8 (set_sink s7 (set_sink s6 (set_sink s5 w1))))) Hdb)
    as (s10 & z10 & E10).
  eexists. exists txs. split; [|split; [exact Hwf|]].
  - apply except_psycopg_run.
    rewrite (bind_run _ _ _ _ _ (except_psycopg_run _ _ _ _ _ E1)).
    rewrite (bind_run _ _ _ _ _ E2), (bind_run _ _ _ _ _ E3), (bind_run _ _ _ _ _ E4).
    rewrite (bind_run _ _ _ _ _ Hgen).
    rewrite (bind_run _ _ _ _ _ E5), (bind_run _ _ _ _ _ E6), (bind_run _ _ _ _ _ E7).
    rewrite (bind_run _ _ _ _ _ E8), (bind_run _ _ _ _ _ E9), (bind_run _ _ _ _ _ E10).
    reflexivity.
  - reflexivity.
Qed.

Lemma well_formed_sequence_id (i : N) (tx : transaction) :
  well_formed i tx -> sequence_id i (tx_id tx).
Proof.
  intros (Hid & _). exists (Decimal.format_0d 8 i).
  split; [exact Hid|]. split; [apply parse_nat_format_0d | apply format_0d_width].
Qed.

(** C7. With an output directory that can be made and a database that
    accepts every call, [create_postgres_transactions] returns exactly
    [NUM_TRANSACTIONS] transactions.  The one at position [i], counted
    from 1, has the id [TRX] followed by [i] zero-padded to eight
    digits, so all the ids differ; its amount is a float drawn in
    [10, 10000] and rounded to two decimals, and lies in
    [10.00, 10000.00]. *)
Theorem created_transactions (cfg : config) (w : world _) :
  os_makedirs (OUTPUT_DIR cfg) (w_dirs w) = None ->
  (forall q s, exists s' z, db_call q s = (s', inr z)) ->
  exists w' txs,
    create_postgres_transactions cfg w = (w', inr txs)
    /\ length txs = N.to_nat (NUM_TRANSACTIONS cfg)
    /\ Forall2 (fun i tx =>
                  sequence_id (N.of_nat i) (tx_id tx)
                  /\ (exists u, (10 <= u)%Q /\ (u <= 10000)%Q
                                /\ tx_amount tx = round_cents u)
                  /\ (10 <= cents_value (tx_amount tx))%Q
                  /\ (cents_value (tx_amount tx) <= 10000)%Q)
               (seq 1 (N.to_nat (NUM_TRANSACTIONS cfg))) txs
    /\ NoDup (map tx_id txs).
Proof.
  intros Hmk Hdb.
  destruct (create_postgres_transactions_run cfg w Hmk Hdb)
    as (w' & txs & Hrun & Hwf & _).
  pose proof (well_formed_ids _ _ Hwf) as Hids.
  exists w', txs. split; [exact Hrun|]. split; [|split].
  - rewrite <- (Forall2_length _ _ _ Hwf). apply range_N_length.
  - unfold range_N in Hwf. change (N.to_nat 1) with 1 in Hwf.
    change (map N.of_nat) with (fmap (M := list) N.of_nat) in Hwf.
    rewrite Forall2_fmap_l in Hwf. eapply Forall2_impl; [exact Hwf|].
    intros i tx Hi. simpl in Hi.
    split; [now apply well_formed_sequence_id|].
    destruct Hi as (_ & Hu & Hlo & Hhi & _). auto.
  - rewrite Hids. apply NoDup_fmap_2_strong; [|apply range_N_NoDup].
    intros a b _ _. apply generate_transaction_id_inj.
Qed.


End Generation.

(* ===================================================================== *)
(** * Reading the fields back *)
(* ===================================================================== *)

Lemma split_at_digits (ds1 ds2 : list ascii) :
  Forall (fun c => is_Some (Decimal.char_digit c)) ds1 ->
  split_at "." (ds1 ++ "."%char :: ds2) = Some (ds1, ds2).
Proof.
  induction 1 as [|c ds1 Hc _ IH]; simpl; [reflexivity|].
  destruct (Ascii.eqb_spec c ".") as [->|_].
  - destruct Hc as [d Hd]. discriminate.
  - now rewrite IH.
Qed.


(** The unsigned part of [{x:.2f}] reads back as the cents it shows. *)
Lemma parse_unsigned_cents (c : N) :
  parse_unsigned
    (list_ascii_of_string
       (Decimal.str_nat (c / 100) +:+ "." +:+ Decimal.format_0d 2 (c mod 100)))
  = Some (cents_value (Z.of_N c)).
Proof.
  unfold parse_unsigned.
  rewrite !list_ascii_app. change (list_ascii_of_string ".") with ["."%char].
  simpl app.
  rewrite split_at_digits by apply str_nat_all_digits.
  pose proof (parse_digits_str_nat (c / 100)) as Hi.
  pose proof (parse_digits_format_0d 2 (c mod 100)) as Hf.
  assert (Hlen : length (list_ascii_of_string (Decimal.format_0d 2 (c mod 100))) = 2).
  { rewrite <- string_length_list_ascii. apply format_0d_length; [|lia].
    change (10 ^ N.of_nat 2)%N with 100%N. apply N.mod_lt. discriminate. }
  assert (Hne : list_ascii_of_string (Decimal.str_nat (c / 100)) <> []).
  { rewrite str_nat_chars. intros Hnil. apply map_eq_nil in Hnil.
    now apply digits_nonempty in Hnil. }
  destruct (list_ascii_of_string (Decimal.str_nat (c / 100))) as [|i0 ic];
    [congruence|].
  destruct (list_ascii_of_string (Decimal.format_0d 2 (c mod 100)))
    as [|f0 [|f1 [|]]]; try discriminate.
  rewrite Hi, Hf. unfold cents_value.
  change (10 ^ Pos.of_nat (length [f0; f1]))%positive with 100%positive.
  do 2 f_equal. pose proof (N.div_mod c 100). lia.
Qed.


(** The text of a date reads back as its year, month and day. *)
Lemma parse_date_strftime (dt : datetime) :
  (dt_year dt < 10000)%N -> (dt_month dt < 100)%N -> (dt_day dt < 100)%N ->
  parse_date (strftime_ymd dt) = Some (dt_year dt, dt_month dt, dt_day dt).
Proof.
  intros Hy Hm Hd. unfold parse_date, strftime_ymd.
  rewrite !list_ascii_app. change (list_ascii_of_string "-") with ["-"%char].
  pose proof (parse_digits_format_0d 4 (dt_year dt)) as Py.
  pose proof (parse_digits_format_0d 2 (dt_month dt)) as Pm.
  pose proof (parse_digits_format_0d 2 (dt_day dt)) as Pd.
  pose proof (format_0d_length 4 (dt_year dt) Hy ltac:(lia)) as Ly.
  pose proof (format_0d_length 2 (dt_month dt) Hm ltac:(lia)) as Lm.
  pose proof (format_0d_length 2 (dt_day dt) Hd ltac:(lia)) as Ld.
  rewrite string_length_list_ascii in Ly, Lm, Ld.
  destruct (list_ascii_of_string (Decimal.format_0d 4 (dt_year dt)))
    as [|y1 [|y2 [|y3 [|y4 [|]]]]]; try discriminate.
  destruct (list_ascii_of_string (Decimal.format_0d 2 (dt_month dt)))
    as [|m1 [|m2 [|]]]; try discriminate.
  destruct (list_ascii_of_string (Decimal.format_0d 2 (dt_day dt)))
    as [|d1 [|d2 [|]]]; try discriminate.
  simpl app. simpl Ascii.eqb. simpl andb. cbv iota.
  now rewrite Py, Pm, Pd.
Qed.

Lemma days_in_month_le (y m : N) : (days_in_month y m <= 31)%N.
Proof.
  unfold days_in_month.
  repeat match goal with
         | |- context [match ?x with _ => _ end] => destruct x
         end; lia.
Qed.

Lemma valid_datetime_date (dt : datetime) :
  valid_datetime dt = true ->
  valid_date (dt_year dt) (dt_month dt) (dt_day dt) = true
  /\ (dt_year dt < 10000)%N /\ (dt_month dt < 100)%N /\ (dt_day dt < 100)%N.
Proof.
  unfold valid_datetime. rewrite !andb_true_iff. intros [[[Hd _] _] _].
  split; [exact Hd|]. unfold valid_date, MAXYEAR in Hd.
  rewrite !andb_true_iff, !N.leb_le in Hd. destruct_and!.
  pose proof (days_in_month_le (dt_year dt) (dt_month dt)). lia.
Qed.

Section Discrepancy.
Context `{Externals}.


End Discrepancy.

(* ===================================================================== *)
(** * Worked runs *)
(* ===================================================================== *)


Lemma malformed_date_is_constant_witness :
  let w := init_world None malformed_date_draws in
  tx_datetime (H := logging_db None) (tx_when sample_debit)
  = inr (datetime_ymd 2024 3 9)
  /\ draw_defect default_config w = (set_pos 2 w, inr (Some wrong_format_date))
  /\ exists w' r,
       write_transaction default_config "test/testdata/bank_bca.csv"
                         sample_debit zero_counters w
       = (w', inr (count_row (Some wrong_format_date) zero_counters))
       /\ appended "test/testdata/bank_bca.csv" r w w'
       /\ date_field r = "2024-13-45".
Proof.
  intros w. split; [reflexivity|]. split; [reflexivity|].
  apply (malformed_date_is_constant default_config "test/testdata/bank_bca.csv"
           sample_debit zero_counters w (set_pos 2 w) (datetime_ymd 2024 3 9));
    reflexivity.
Defined.



Lemma partition_disjoint_witness :
  let w := init_world None (fun _ => 0%N) in
  let txs := [sample_debit; sample_credit] in
  NoDup (map tx_id txs)
  /\ (0 < NUM_BANK_FILES two_banks_one_row)%N
  /\ (ROWS_PER_BANK two_banks_one_row
      <= N.of_nat (length txs) / NUM_BANK_FILES two_banks_one_row)%N
  /\ exists w' available,
       shuffle txs w = (w', inr available)
       /\ available ≡ₚ txs
       /\ forall i j : N, i <> j ->
          exists ti tj,
            bank_transactions two_banks_one_row available i = inr ti
            /\ bank_transactions two_banks_one_row available j = inr tj
            /\ disjoint_ids ti tj.
Proof.
  intros w txs.
  assert (Hnd : NoDup (map tx_id txs)).
  { compute_done. }
  split; [exact Hnd|]. split; [reflexivity|]. split; [discriminate|].
  apply (partition_disjoint two_banks_one_row txs w Hnd);
    [reflexivity | discriminate].
Defined.

(** C3, as stated, fails: with two banks that each ask for two rows of a
    pool of two, the stride is 1, the windows are [0:2] and [1:3], and the
    first transaction is given to both banks. *)
Lemma partition_overlap :
  let w := init_world None (fun _ => 0%N) in
  let txs := [sample_debit; sample_credit] in
  NoDup (map tx_id txs)
  /\ exists w' available ti tj,
       shuffle txs w = (w', inr available)
       /\ bank_transactions two_banks available 0 = inr ti
       /\ bank_transactions two_banks available 1 = inr tj
       /\ ~ disjoint_ids ti tj.
Proof.
  intros w txs. split.
  - compute_done.
  - exists (set_pos 1 w), [sample_credit; sample_debit],
           [sample_credit; sample_debit], [sample_debit].
    split; [reflexivity|]. split; [reflexivity|]. split; [reflexivity|].
    intros Hdis. apply (Hdis "TRX00000001"); simpl; set_solver.
Qed.

(** The same configuration run to the end with draws of 0.5 (no swap in
    the shuffle, no defect): the row of [TRX00000002] is in both files. *)
Lemma partition_overlap_files :
  let w' := (create_bank_csv_files two_banks [sample_debit; sample_credit]
               (init_world None (fun _ => half))).1 in
  w_files w' !! "out/bank_a.csv"
  = Some [["trx_ref_id"; "amount"; "date"];
          ["TRX00000001"; "-123.45"; "2024-03-09"];
          ["TRX00000002"; "500.00"; "2024-12-31"]]
  /\ w_files w' !! "out/bank_b.csv"
     = Some [["trx_ref_id"; "amount"; "date"];
             ["TRX00000002"; "500.00"; "2024-12-31"]].
Proof. vm_compute. split; reflexivity. Qed.

(** C6, as stated, fails: the first unmatched row of the bank [bank_bca]
    has the id [BANK_BANK_BCA_000000], which is not the bank name in upper
    case followed by an underscore and the sequence number. *)
Lemma unmatched_id_has_bank_prefix :
  let w' := (create_bank_csv_files twenty_rows []
               (init_world None (fun _ => 0%N))).1 in
  w_files w' !! "test/testdata/bank_bca.csv"
  = Some [["trx_ref_id"; "amount"; "date"];
          ["BANK_BANK_BCA_000000"; "10.00"; "2024-01-01"]]
  /\ source_seq_id "bank_bca" 0 = "BANK_BCA_000000"
  /\ "BANK_BANK_BCA_000000" <> source_seq_id "bank_bca" 0.
Proof. vm_compute. split; [reflexivity|]. split; [reflexivity | discriminate]. Qed.

(** C2 on a DEBIT transaction of 123.45 that is given the wrong-date
    defect: the date is the invalid [2024-13-45] (month 13, day 45), and
    the amount is written as [123.45], without the minus sign that the
    convention gives a DEBIT. *)
Theorem malformed_date_debit_is_unsigned :
  let w' := (create_bank_csv_files one_row [sample_debit]
               (init_world None malformed_date_draws)).1 in
  w_files w' !! "out/bank_bca.csv"
  = Some [["trx_ref_id"; "amount"; "date"];
          ["TRX00000001"; "123.45"; "2024-13-45"]]
  /\ parse_date "2024-13-45" = Some (2024, 13, 45)%N
  /\ valid_date 2024 13 45 = false
  /\ cents_text (bank_cents DEBIT 12345) = "-123.45".
Proof. vm_compute. repeat split; reflexivity. Qed.

(* ===================================================================== *)
(** * The calendar as a count of days *)
(* ===================================================================== *)

Lemma days_before_year_succ (y : N) :
  (1 <= y)%N ->
  days_before_year (y + 1)
  = (days_before_year y + (if is_leap y then 366 else 365))%Z.
Proof.
  intros Hy. unfold days_before_year, is_leap.
  destruct (N.eqb_spec (y mod 4) 0) as [H4|H4];
    destruct (N.eqb_spec (y mod 100) 0) as [H100|H100];
    destruct (N.eqb_spec (y mod 400) 0) as [H400|H400]; simpl;
    zify; Z.to_euclidean_division_equations; lia.
Qed.

Lemma days_before_year_mono (y1 y2 : N) :
  (1 <= y1)%N -> (y1 <= y2)%N ->
  (days_before_year y1 <= days_before_year y2)%Z.
Proof.
  intros H1 H12. unfold days_before_year.
  zify; Z.to_euclidean_division_equations; lia.
Qed.

Lemma month_cases (m : N) :
  (1 <= m <= 12)%N ->
  m = 1%N \/ m = 2%N \/ m = 3%N \/ m = 4%N \/ m = 5%N \/ m = 6%N \/ m = 7%N
  \/ m = 8%N \/ m = 9%N \/ m = 10%N \/ m = 11%N \/ m = 12%N.
Proof. lia. Qed.

Lemma days_before_month_succ (y m : N) :
  (1 <= m <= 11)%N ->
  days_before_month y (m + 1)
  = (days_before_month y m + Z.of_N (days_in_month y m))%Z.
Proof.
  intros Hm. destruct (month_cases m ltac:(lia)) as [H|H];
    repeat (destruct H as [H|H]); subst m; try lia;
    unfold days_before_month, days_in_month; simpl; destruct (is_leap y); lia.
Qed.

Lemma days_before_december (y : N) :
  (days_before_month y 12 + 31)%Z = if is_leap y then 366%Z else 365%Z.
Proof.
  unfold days_before_month, days_in_month. simpl. destruct (is_leap y); lia.
Qed.

(** The days before a month plus a day of that month stay within the
    year. *)
Lemma day_of_year_range (y m d : N) :
  (1 <= m <= 12)%N -> (1 <= d <= days_in_month y m)%N ->
  (1 <= days_before_month y m + Z.of_N d
   <= if is_leap y then 366 else 365)%Z.
Proof.
  intros Hm Hd. destruct (month_cases m Hm) as [H|H];
    repeat (destruct H as [H|H]); subst m;
    revert Hd; unfold days_before_month, days_in_month; simpl;
    destruct (is_leap y); lia.
Qed.

(** The day after has the next ordinal. *)
Lemma next_day_ordinal (y m d : N) :
  (1 <= y)%N -> (1 <= m <= 12)%N -> (1 <= d <= days_in_month y m)%N ->
  let '(y', m', d') := next_day (y, m, d) in
  (days_before_year y' + days_before_month y' m' + Z.of_N d'
   = days_before_year y + days_before_month y m + Z.of_N d + 1)%Z.
Proof.
  intros Hy Hm Hd. unfold next_day.
  destruct (N.ltb_spec d (days_in_month y m)) as [Hlt|Hge];
    [lia | destruct (N.ltb_spec m 12) as [Hm12|Hm12]].
  - rewrite days_before_month_succ by lia.
    assert (d = days_in_month y m) by lia. subst d.
    change (days_before_month y 1) with 0%Z. lia.
  - assert (m = 12%N) by lia. subst m.
    assert (d = 31%N) by (unfold days_in_month in *; simpl in *; lia). subst d.
    rewrite days_before_year_succ by assumption.
    pose proof (days_before_december y).
    change (days_before_month (y + 1) 1) with 0%Z. lia.
Qed.

Lemma iter_next_day_ordinal (n y m d : N) :
  (1 <= y)%N -> (1 <= m <= 12)%N -> (1 <= d <= days_in_month y m)%N ->
  let '(y', m', d') := N.iter n next_day (y, m, d) in
  (days_before_year y' + days_before_month y' m' + Z.of_N d'
   = days_before_year y + days_before_month y m + Z.of_N d + Z.of_N n)%Z
  /\ (y <= y')%N /\ (1 <= m' <= 12)%N /\ (1 <= d' <= days_in_month y' m')%N.
Proof.
  intros Hy Hm Hd. induction n as [|n IH] using N.peano_ind.
  - simpl. repeat split; lia.
  - rewrite N.iter_succ.
    destruct (N.iter n next_day (y, m, d)) as [[y1 m1] d1].
    destruct IH as (Hord & Hy1 & Hm1 & Hd1).
    pose proof (next_day_ordinal y1 m1 d1 ltac:(lia) Hm1 Hd1) as Hn.
    pose proof (next_day_ok y1 m1 d1 Hm1) as Hok.
    destruct (next_day (y1, m1, d1)) as [[y2 m2] d2].
    destruct Hok as (Hy2 & Hm2 & Hd2). specialize (Hd2 ltac:(lia)).
    repeat split; lia.
Qed.

(** A valid date of a later year has a later ordinal. *)
Lemma ordinal_year_mono (y1 m1 d1 y2 m2 d2 : N) :
  (1 <= y1)%N -> (1 <= m1 <= 12)%N -> (1 <= d1 <= days_in_month y1 m1)%N ->
  (1 <= m2 <= 12)%N -> (1 <= d2 <= days_in_month y2 m2)%N ->
  (y1 < y2)%N ->
  (days_before_year y1 + days_before_month y1 m1 + Z.of_N d1
   < days_before_year y2 + days_before_month y2 m2 + Z.of_N d2)%Z.
Proof.
  intros Hy1 Hm1 Hd1 Hm2 Hd2 Hlt.
  pose proof (day_of_year_range y1 m1 d1 Hm1 Hd1) as R1.
  pose proof (day_of_year_range y2 m2 d2 Hm2 Hd2) as R2.
  pose proof (days_before_year_succ y1 Hy1) as Hs.
  pose proof (days_before_year_mono (y1 + 1) y2 ltac:(lia) ltac:(lia)) as Hmono.
  destruct (is_leap y1), (is_leap y2); lia.
Qed.

Lemma second_of_day_split (r : N) :
  (r / 3600 * 3600 + r mod 3600 / 60 * 60 + r mod 60 = r)%N.
Proof. zify; Z.to_euclidean_division_equations; lia. Qed.

Lemma valid_datetime_parts (dt : datetime) :
  valid_datetime dt = true ->
  (1 <= dt_year dt <= MAXYEAR)%N /\ (1 <= dt_month dt <= 12)%N
  /\ (1 <= dt_day dt <= days_in_month (dt_year dt) (dt_month dt))%N
  /\ (second_of_day dt < 86400)%N.
Proof.
  unfold valid_datetime, valid_date, second_of_day.
  rewrite !andb_true_iff, !N.leb_le, !N.ltb_lt. intros Hv. destruct_and!.
  repeat split; lia.
Qed.

(** [dt + timedelta(seconds=s)], when it exists, is a valid [datetime]
    exactly [s] seconds after [dt]. *)
Lemma add_seconds_between (dt d : datetime) (s : N) :
  valid_datetime dt = true ->
  add_seconds dt s = Some d ->
  valid_datetime d = true /\ seconds_between dt d = Z.of_N s.
Proof.
  intros Hv Hadd.
  destruct (valid_datetime_parts dt Hv) as (Hy & Hm & Hd & Hs).
  unfold add_seconds in Hadd. unfold seconds_between, toordinal.
  pose proof (iter_next_day_ordinal ((second_of_day dt + s) / 86400)
                (dt_year dt) (dt_month dt) (dt_day dt)
                ltac:(lia) Hm Hd) as Hit.
  destruct (N.iter _ next_day _) as [[y' m'] d'].
  destruct Hit as (Hord & Hy' & Hm' & Hd').
  destruct (N.ltb_spec MAXYEAR y') as [Hlt|Hle]; [discriminate|].
  injection Hadd as <-.
  pose proof (N.mod_lt (second_of_day dt + s) 86400 ltac:(discriminate)) as Hr.
  pose proof (N.div_mod (second_of_day dt + s) 86400 ltac:(discriminate)) as Hdm.
  set (t := (second_of_day dt + s)%N) in *.
  set (r := (t mod 86400)%N) in *.
  split.
  - unfold valid_datetime, valid_date. simpl.
    rewrite !andb_true_iff, !N.leb_le, !N.ltb_lt.
    repeat split; try lia.
    + apply N.Div0.div_lt_upper_bound. lia.
    + apply N.Div0.div_lt_upper_bound. pose proof (N.mod_lt r 3600). lia.
    + apply N.mod_lt. discriminate.
  - unfold second_of_day at 1. simpl.
    rewrite second_of_day_split. lia.
Qed.

(** Adding no more seconds than lie before a valid [datetime] never
    leaves the range of years. *)
Lemma add_seconds_in_range (dt bound : datetime) (s : N) :
  valid_datetime dt = true -> valid_datetime bound = true ->
  (Z.of_N s <= seconds_between dt bound)%Z ->
  exists d, add_seconds dt s = Some d.
Proof.
  intros Hv Hb Hs.
  destruct (valid_datetime_parts dt Hv) as (Hy & Hm & Hd & Ht).
  destruct (valid_datetime_parts bound Hb) as (Hyb & Hmb & Hdb & Htb).
  unfold add_seconds. unfold seconds_between, toordinal in Hs.
  pose proof (iter_next_day_ordinal ((second_of_day dt + s) / 86400)
                (dt_year dt) (dt_month dt) (dt_day dt)
                ltac:(lia) Hm Hd) as Hit.
  destruct (N.iter _ next_day _) as [[y' m'] d'].
  destruct Hit as (Hord & Hy' & Hm' & Hd').
  destruct (N.ltb_spec MAXYEAR y') as [Hlt|Hle]; [exfalso | eauto].
  pose proof (ordinal_year_mono (dt_year bound) (dt_month bound) (dt_day bound)
                y' m' d' ltac:(lia) Hmb Hdb Hm' Hd' ltac:(lia)) as Hmono.
  pose proof (N.div_mod (second_of_day dt + s) 86400 ltac:(discriminate)) as Hdm.
  pose proof (N.mod_lt (second_of_day dt + s) 86400 ltac:(discriminate)) as Hr.
  clear Hy' Hm' Hd' Hd Hdb Hv Hb.
  revert Hdm Hr Hord. generalize ((second_of_day dt + s) / 86400)%N.
  generalize ((second_of_day dt + s) mod 86400)%N.
  intros R Q Hdm Hr Hord. lia.
Qed.

(** A valid [datetime] between two others, counted in seconds, has its
    year between theirs. *)
Lemma window_year (a b d : datetime) :
  valid_datetime a = true -> valid_datetime b = true ->
  valid_datetime d = true ->
  (0 <= seconds_between a d)%Z ->
  (seconds_between a d <= seconds_between a b)%Z ->
  (dt_year a <= dt_year d <= dt_year b)%N.
Proof.
  intros Ha Hb Hd Hlo Hhi.
  destruct (valid_datetime_parts a Ha) as (Hya & Hma & Hda & Hta).
  destruct (valid_datetime_parts b Hb) as (Hyb & Hmb & Hdb & Htb).
  destruct (valid_datetime_parts d Hd) as (Hyd & Hmd & Hdd & Htd).
  unfold seconds_between, toordinal in *. split.
  - destruct (N.le_gt_cases (dt_year a) (dt_year d)) as [?|Hlt]; [assumption|].
    pose proof (ordinal_year_mono (dt_year d) (dt_month d) (dt_day d)
                  (dt_year a) (dt_month a) (dt_day a)
                  ltac:(lia) Hmd Hdd Hma Hda Hlt). lia.
  - destruct (N.le_gt_cases (dt_year d) (dt_year b)) as [?|Hlt]; [assumption|].
    pose proof (ordinal_year_mono (dt_year b) (dt_month b) (dt_day b)
                  (dt_year d) (dt_month d) (dt_day d)
                  ltac:(lia) Hmb Hdb Hmd Hdd Hlt). lia.
Qed.

Section RandomDatetime.
Context `{Externals}.

Lemma generate_random_datetime_window (start_date end_date : datetime)
    (w : world _) :
  valid_datetime start_date = true ->
  valid_datetime end_date = true ->
  (0 <= seconds_between start_date end_date)%Z ->
  exists d,
    generate_random_datetime start_date end_date w
    = (set_pos (S (w_pos w)) w, inr d)
    /\ valid_datetime d = true
    /\ (0 <= seconds_between start_date d)%Z
    /\ (seconds_between start_date d <= seconds_between start_date end_date)%Z.
Proof.
  intros Hs He Hwin. unfold generate_random_datetime, randint.
  destruct (Z.ltb_spec (seconds_between start_date end_date) 0) as [?|_]; [lia|].
  destruct (randbelow_run (Z.to_N (seconds_between start_date end_date - 0 + 1)) w)
    as (k & Hk & Hrun); [lia|].
  rewrite (bind_run _ _ _ _ _ (bind_run _ _ _ _ _ Hrun)).
  unfold ret at 1. rewrite Z.add_0_l, N2Z.id.
  destruct (add_seconds_in_range start_date end_date k Hs He ltac:(lia))
    as (d & Hd).
  rewrite Hd. destruct (add_seconds_between start_date d k Hs Hd) as (Hv & Hb).
  exists d. split; [reflexivity|]. split; [exact Hv|]. lia.
Qed.


End RandomDatetime.

(* ===================================================================== *)
(** * More on shuffling and on the windows of the banks *)
(* ===================================================================== *)

Section Windows.
Context `{Externals}.

Lemma keeps_files_shuffle {A} (l : list A) : keeps_files (shuffle l).
Proof.
  unfold shuffle. generalize (rev (seq 1 (length l - 1))) as indices.
  intros indices. revert l. induction indices as [|i rest IH]; intros l; simpl.
  - apply keeps_files_ret.
  - apply keeps_files_bind; [apply keeps_files_randbelow|]. intros j. apply IH.
Qed.

(** X3. [random.shuffle] always returns, and what it returns is a
    rearrangement of its input: the same elements, each as many times,
    and as many of them. *)
Theorem shuffle_is_permutation {A} (l : list A) (w : world _) :
  exists w' l',
    shuffle l w = (w', inr l')
    /\ l' ≡ₚ l
    /\ length l' = length l
    /\ forall x, x ∈ l' <-> x ∈ l.
Proof.
  destruct (shuffle_loop_run (rev (seq 1 (length l - 1))) l w)
    as (w' & l' & Hrun & Hperm).
  exists w', l'. split; [exact Hrun|]. split; [exact Hperm|].
  split; [now rewrite Hperm|]. intros x. now rewrite Hperm.
Qed.

Lemma bank_window_subset (cfg : config) (available : list transaction)
    (i : N) (txs : list transaction) :
  bank_transactions cfg available i = inr txs -> txs ⊆ available.
Proof.
  unfold bank_transactions. destruct (NUM_BANK_FILES cfg =? 0)%N; [discriminate|].
  intros [= <-]. unfold slice.
  etransitivity; [apply subseteq_take | apply subseteq_drop].
Qed.

(** X4. With a positive [NUM_BANK_FILES] the window of a bank never
    fails; it holds [ROWS_PER_BANK] transactions, or only those left
    after its start when the pool is shorter - none when the start is
    beyond the pool - and all of them come from the pool. *)
Theorem bank_window_bounds (cfg : config) (available : list transaction)
    (i : N) :
  (0 < NUM_BANK_FILES cfg)%N ->
  let start_idx :=
    N.to_nat (i * (N.of_nat (length available) / NUM_BANK_FILES cfg)) in
  exists txs,
    bank_transactions cfg available i = inr txs
    /\ length txs
       = Nat.min (N.to_nat (ROWS_PER_BANK cfg)) (length available - start_idx)
    /\ txs ⊆ available.
Proof.
  intros Hn start_idx. rewrite bank_transactions_window by assumption.
  eexists. split; [reflexivity|]. split.
  - now rewrite length_take, length_drop.
  - etransitivity; [apply subseteq_take | apply subseteq_drop].
Qed.

(** X5. With [NUM_BANK_FILES = 0] and at least one bank whose file can be
    opened, [create_bank_csv_files] raises [ZeroDivisionError] after it
    has created the file of the first bank: that file holds the header
    and nothing else, and no other file is touched. *)
Theorem zero_bank_files_error (cfg : config) (txs : list transaction)
    (bank : string) (rest : list string) (w : world _) :
  NUM_BANK_FILES cfg = 0%N ->
  BANKS cfg = bank :: rest ->
  let csv := path_join (OUTPUT_DIR cfg) (bank +:+ ".csv") in
  os_open csv (w_dirs w) = None ->
  exists w',
    create_bank_csv_files cfg txs w = (w', inl ZeroDivisionError)
    /\ w_files w' = <[csv := [["trx_ref_id"; "amount"; "date"]]]> (w_files w).
Proof.
  intros H0 Hbanks csv Hopen. unfold create_bank_csv_files.
  destruct (shuffle_loop_run (rev (seq 1 (length txs - 1))) txs w)
    as (w1 & available & Hrun & _).
  fold (shuffle txs) in Hrun.
  pose proof (keeps_files_shuffle txs w) as K. rewrite Hrun in K. simpl in K.
  pose proof (keeps_dirs_shuffle txs w) as D. rewrite Hrun in D. simpl in D.
  rewrite (bind_run _ _ _ _ _ Hrun), Hbanks. simpl write_bank_files.
  assert (Hbank : exists w', write_bank_file cfg available 0 bank w1
                             = (w', inl ZeroDivisionError)
                             /\ w_files w'
                                = <[csv := [["trx_ref_id"; "amount"; "date"]]]>
                                    (w_files w1)).
  { unfold write_bank_file. fold csv.
    rewrite (bind_run _ _ _ _ _ (open_w_run csv w1 ltac:(now rewrite D))).
    rewrite (bind_run (writerow csv _) _ _ _ tt eq_refl).
    unfold bank_transactions. rewrite H0. simpl.
    eexists. split; [reflexivity|]. simpl. now rewrite alter_insert_eq. }
  destruct Hbank as (w' & Hbank & Hfiles).
  rewrite (bind_raise _ _ _ _ _ Hbank).
  exists w'. split; [reflexivity|]. now rewrite Hfiles, K.
Qed.

(** X16. When the file of the first bank cannot be opened,
    [create_bank_csv_files] raises what [open] raised, and no file is
    created or changed. *)
Theorem open_failure_propagates (cfg : config) (txs : list transaction)
    (bank : string) (rest : list string) (w : world _) (e : exn) :
  BANKS cfg = bank :: rest ->
  os_open (path_join (OUTPUT_DIR cfg) (bank +:+ ".csv")) (w_dirs w) = Some e ->
  exists w',
    create_bank_csv_files cfg txs w = (w', inl e)
    /\ w_files w' = w_files w.
Proof.
  intros Hbanks Hopen. unfold create_bank_csv_files.
  destruct (shuffle_loop_run (rev (seq 1 (length txs - 1))) txs w)
    as (w1 & available & Hrun & _).
  fold (shuffle txs) in Hrun.
  pose proof (keeps_files_shuffle txs w) as K. rewrite Hrun in K. simpl in K.
  pose proof (keeps_dirs_shuffle txs w) as D. rewrite Hrun in D. simpl in D.
  rewrite (bind_run _ _ _ _ _ Hrun), Hbanks. simpl write_bank_files.
  assert (Hbank : write_bank_file cfg available 0 bank w1 = (w1, inl e)).
  { unfold write_bank_file. apply bind_raise, open_w_raise. now rewrite D. }
  rewrite (bind_raise _ _ _ _ _ Hbank).
  exists w1. split; [reflexivity | exact K].
Qed.

End Windows.

(* ===================================================================== *)
(** * Whole files and their counters *)
(* ===================================================================== *)

Lemma count_row_counts (defect : option error_type) (c : counters) :
  rows_written (count_row defect c) = (rows_written c + 1)%N
  /\ (error_rows (count_row defect c) + matched_rows (count_row defect c)
      + discrepancy_rows (count_row defect c)
      = error_rows c + matched_rows c + discrepancy_rows c + 1)%N
  /\ unmatched_rows (count_row defect c) = unmatched_rows c.
Proof. destruct defect as [[]|]; simpl; repeat split; lia. Qed.

Section Files.
Context `{Externals}.

Lemma write_transaction_readable (cfg : config) (csv : string)
    (tx : transaction) (c : counters) (w : world _) (dt : datetime) :
  tx_datetime (tx_when tx) = inr dt ->
  exists w' defect r,
    write_transaction cfg csv tx c w = (w', inr (count_row defect c))
    /\ appended csv r w w'
    /\ ref_id r = tx_id tx
    /\ (defect = None <-> Qltb (next_random w) (ERROR_RATE cfg) = false).
Proof.
  intros Hdt. destruct (draw_defect_run cfg w) as (w1 & defect & Hd & Hnone).
  destruct (transaction_row_run tx (strftime_ymd dt) defect w1)
    as (w2 & r & Hr & Hid & _).
  destruct (write_transaction_run cfg csv tx c w w1 w2 dt defect r Hdt Hd Hr)
    as (w' & Hrun & Happ).
  exists w', defect, r. auto.
Qed.

(** When every time is readable and the rows fit under [ROWS_PER_BANK],
    the loop goes through all the transactions. *)
Lemma write_transactions_all (cfg : config) (csv : string)
    (txs : list transaction) (c : counters) (w : world _) :
  Forall (fun tx => exists dt, tx_datetime (tx_when tx) = inr dt) txs ->
  (rows_written c + N.of_nat (length txs) <= ROWS_PER_BANK cfg)%N ->
  exists w' c' rs,
    write_transactions cfg csv txs c w = (w', inr c')
    /\ w_files w' = alter (fun rows => rows ++ rs) csv (w_files w)
    /\ Forall2 (fun tx r => ref_id r = tx_id tx) txs rs
    /\ rows_written c' = (rows_written c + N.of_nat (length txs))%N
    /\ (error_rows c' + matched_rows c' + discrepancy_rows c'
        = error_rows c + matched_rows c + discrepancy_rows c
          + N.of_nat (length txs))%N
    /\ unmatched_rows c' = unmatched_rows c.
Proof.
  intros Hall. revert c w. induction Hall as [|tx txs [dt Hdt] _ IH];
    intros c w Hfit; simpl.
  - exists w, c, []. split; [reflexivity|]. split; [apply alter_app_nil|].
    split; [constructor|]. repeat split; lia.
  - simpl in Hfit.
    destruct (N.leb_spec (ROWS_PER_BANK cfg) (rows_written c)) as [?|_]; [lia|].
    destruct (write_transaction_readable cfg csv tx c w dt Hdt)
      as (w1 & defect & r & Hrun & Happ & Hid & _).
    rewrite (bind_run _ _ _ _ _ Hrun).
    destruct (count_row_counts defect c) as (Hw & Hs & Hu).
    destruct (IH (count_row defect c) w1 ltac:(lia))
      as (w' & c' & rs & Hrest & Hfiles & Hids & Hw' & Hs' & Hu').
    exists w', c', (r :: rs). split; [exact Hrest|]. split; [|split].
    + rewrite Hfiles, Happ, alter_alter_eq. apply alter_ext.
      intros rows _. simpl. now rewrite <- app_assoc.
    + now constructor.
    + repeat split; lia.
Qed.

(** One unmatched row: its counters, and what its fields hold. *)
Lemma write_unmatched_step (csv bank : string) (i : N) (c : counters)
    (w : world _) :
  exists w' cents d,
    write_unmatched csv bank i c w
    = (w', inr (mk_counters (rows_written c + 1) (error_rows c)
                            (matched_rows c) (unmatched_rows c + 1)
                            (discrepancy_rows c)))
    /\ appended csv [fake_trx_id bank i; format_2f (cents_value cents);
                     strftime_ymd d] w w'
    /\ (1000 <= cents <= 1000000)%Z
    /\ valid_datetime d = true
    /\ dt_year d = 2024%N.
Proof.
  unfold write_unmatched.
  rewrite (bind_run _ _ _ _ _ (generate_random_amount_run w)).
  destruct (generate_random_datetime_window
              (datetime_ymd 2024 1 1) (datetime_ymd 2024 12 31)
              (set_pos (S (w_pos w)) w))
    as (d & Hd & Hv & Hlo & Hhi); [reflexivity | reflexivity | discriminate |].
  rewrite (bind_run _ _ _ _ _ Hd).
  do 3 eexists. split; [reflexivity|]. split; [reflexivity|].
  split; [|split; [exact Hv|]].
  - destruct (next_random_range w) as [H0 H1].
    destruct (random_amount_range (next_random w) H0 H1) as [Ha Hb].
    now apply round_cents_range.
  - pose proof (window_year (datetime_ymd 2024 1 1) (datetime_ymd 2024 12 31) d
                  eq_refl eq_refl Hv Hlo Hhi) as Hy.
    simpl in Hy. lia.
Qed.

Lemma write_unmatched_rows_counters (csv bank : string) (indices : list N)
    (c : counters) (w : world _) :
  exists w' c' rs,
    write_unmatched_rows csv bank indices c w = (w', inr c')
    /\ w_files w' = alter (fun rows => rows ++ rs) csv (w_files w)
    /\ map ref_id rs = map (fake_trx_id bank) indices
    /\ rows_written c' = (rows_written c + N.of_nat (length indices))%N
    /\ unmatched_rows c' = (unmatched_rows c + N.of_nat (length indices))%N
    /\ (error_rows c' + matched_rows c' + discrepancy_rows c'
        = error_rows c + matched_rows c + discrepancy_rows c)%N.
Proof.
  revert c w. induction indices as [|i rest IH]; intros c w; simpl.
  - exists w, c, []. split; [reflexivity|]. split; [apply alter_app_nil|].
    split; [reflexivity|]. repeat split; lia.
  - destruct (write_unmatched_step csv bank i c w)
      as (w1 & cents & d & Hrun & Happ & _).
    rewrite (bind_run _ _ _ _ _ Hrun).
    destruct (IH (mk_counters (rows_written c + 1) (error_rows c)
                              (matched_rows c) (unmatched_rows c + 1)
                              (discrepancy_rows c)) w1)
      as (w' & c' & rs & Hrest & Hfiles & Hids & Hw & Hu & Hs).
    simpl in Hw, Hu, Hs.
    exists w', c', ([fake_trx_id bank i; format_2f (cents_value cents);
                     strftime_ymd d] :: rs).
    split; [exact Hrest|]. split; [|split].
    + rewrite Hfiles, Happ, alter_alter_eq. apply alter_ext.
      intros rows _. simpl. now rewrite <- app_assoc.
    + simpl. now rewrite Hids.
    + repeat split; lia.
Qed.

(** The file of a bank, when it can be opened and every time in the pool
    is readable. *)
Lemma write_bank_file_run (cfg : config) (available : list transaction)
    (i : N) (bank : string) (w : world _) (n : N) :
  os_open (path_join (OUTPUT_DIR cfg) (bank +:+ ".csv")) (w_dirs w) = None ->
  (0 < NUM_BANK_FILES cfg)%N ->
  num_unmatched cfg = inr n ->
  Forall (fun tx => exists dt, tx_datetime (tx_when tx) = inr dt) available ->
  exists w' c txs rs us,
    write_bank_file cfg available i bank w = (w', inr c)
    /\ bank_transactions cfg available i = inr txs
    /\ w_files w'
       = <[path_join (OUTPUT_DIR cfg) (bank +:+ ".csv")
           := ["trx_ref_id"; "amount"; "date"] :: rs ++ us]> (w_files w)
    /\ Forall2 (fun tx r => ref_id r = tx_id tx) txs rs
    /\ map ref_id us = map (fake_trx_id bank) (range_N 0 n)
    /\ rows_written c = (N.of_nat (length txs) + n)%N
    /\ unmatched_rows c = n
    /\ (error_rows c + matched_rows c + discrepancy_rows c
        = N.of_nat (length txs))%N.
Proof.
  intros Hopen Hn Hnum Hall. unfold write_bank_file. set (csv := path_join _ _) in *.
  rewrite (bind_run _ _ _ _ _ (open_w_run csv w Hopen)).
  set (w0 := set_files _ w).
  rewrite (bind_run (writerow csv _) _ w0 _ tt eq_refl).
  set (w1 := set_files _ w0).
  rewrite bank_transactions_window by assumption.
  set (txs := take _ _).
  unfold lift at 1. unfold bind at 1.
  assert (Htxs : Forall (fun tx => exists dt, tx_datetime (tx_when tx) = inr dt) txs).
  { apply Forall_take, Forall_drop, Hall. }
  assert (Hlen : (N.of_nat (length txs) <= ROWS_PER_BANK cfg)%N).
  { unfold txs. rewrite length_take. lia. }
  destruct (write_transactions_all cfg csv txs zero_counters w1 Htxs)
    as (w2 & c2 & rs & Hrun & Hfiles & Hids & Hw & Hs & Hu); [simpl; lia|].
  rewrite (bind_run _ _ _ _ _ Hrun), Hnum.
  unfold lift at 1. unfold bind at 1.
  destruct (write_unmatched_rows_counters csv bank (range_N 0 n) c2 w2)
    as (w3 & c3 & us & Hrun' & Hfiles' & Hus & Hw' & Hu' & Hs').
  rewrite range_N_length, N2Nat.id in Hw', Hu'. simpl in Hw, Hs, Hu.
  exists w3, c3, txs, rs, us. split; [exact Hrun'|]. split; [reflexivity|].
  split; [|split; [exact Hids|split; [exact Hus|]]].
  - rewrite Hfiles', Hfiles. subst w1 w0. simpl.
    rewrite !alter_insert_eq. reflexivity.
  - repeat split; lia.
Qed.

(** C5. When the file of a bank can be opened, [NUM_BANK_FILES] is
    positive and every time in the pool is readable, [write_bank_file]
    returns, and below the header and the rows of the bank's transactions
    the file holds the unmatched rows: floor(ROWS_PER_BANK * 0.05) of
    them, counted by [unmatched_rows], with the [BANK_] ids numbered from
    0, none of which is the id of a transaction.  The product of the code
    is a float product; below 2^48 rows it has the floor of the exact
    product. *)
Theorem bank_file_unmatched_rows (cfg : config) (available : list transaction)
    (i : N) (bank : string) (w : world _) :
  let csv := path_join (OUTPUT_DIR cfg) (bank +:+ ".csv") in
  os_open csv (w_dirs w) = None ->
  (0 < NUM_BANK_FILES cfg)%N ->
  (ROWS_PER_BANK cfg < 2 ^ 48)%N ->
  Forall (fun tx => exists dt, tx_datetime (tx_when tx) = inr dt) available ->
  exists w' c txs rs us,
    write_bank_file cfg available i bank w = (w', inr c)
    /\ bank_transactions cfg available i = inr txs
    /\ w_files w' !! csv = Some (["trx_ref_id"; "amount"; "date"] :: rs ++ us)
    /\ Forall2 (fun tx r => ref_id r = tx_id tx) txs rs
    /\ N.of_nat (length us)
       = Z.to_N (Qfloor (inject_Z (Z.of_N (ROWS_PER_BANK cfg)) * (5 # 100)))
    /\ unmatched_rows c = N.of_nat (length us)
    /\ map ref_id us
       = map (fun k => fake_trx_id bank (N.of_nat k)) (seq 0 (length us))
    /\ Forall (fun r => forall index, ref_id r <> generate_transaction_id index) us.
Proof.
  intros csv Hopen Hn Hrows Hall.
  destruct (write_bank_file_run cfg available i bank w _ Hopen Hn
              (num_unmatched_small cfg Hrows) Hall)
    as (w' & c & txs & rs & us & Hrun & Htxs & Hfiles & Hids & Hus & _ & Hu & _).
  assert (Hlus : N.of_nat (length us) = (ROWS_PER_BANK cfg / 20)%N).
  { pose proof (f_equal length Hus) as Hl.
    rewrite !length_map, range_N_length in Hl.
    rewrite <- (N2Nat.id (ROWS_PER_BANK cfg / 20)). f_equal. exact Hl. }
  exists w', c, txs, rs, us. split; [exact Hrun|]. split; [exact Htxs|].
  split; [now rewrite Hfiles, lookup_insert_eq|]. split; [exact Hids|].
  split; [now rewrite floor_twentieth|]. split; [now rewrite Hlus|].
  split.
  { etransitivity; [exact Hus|]. unfold range_N.
    rewrite map_map, <- Hlus, Nat2N.id. reflexivity. }
  apply Forall_forall. intros r Hr index.
  assert (Hin : ref_id r ∈ map (fake_trx_id bank)
                               (range_N 0 (ROWS_PER_BANK cfg / 20))).
  { rewrite <- Hus. now apply list_elem_of_fmap_2. }
  apply list_elem_of_fmap in Hin as (k & -> & _).
  apply fake_id_not_transaction_id.
Qed.

(** X6. When the file of a bank can be opened, [NUM_BANK_FILES] is
    positive, [int(ROWS_PER_BANK * 0.05)] is some [n] and every time in
    the pool is readable, writing the file never fails: the file holds
    the header, one row per transaction of the bank's window, then [n]
    unmatched rows; the guard on [rows_written] never cuts the window
    short; and the counters add up: [rows_written] counts the rows below
    the header and equals the sum of the four other counters. *)
Theorem bank_file_complete (cfg : config) (available : list transaction)
    (i : N) (bank : string) (w : world _) (n : N) :
  os_open (path_join (OUTPUT_DIR cfg) (bank +:+ ".csv")) (w_dirs w) = None ->
  (0 < NUM_BANK_FILES cfg)%N ->
  num_unmatched cfg = inr n ->
  Forall (fun tx => exists dt, tx_datetime (tx_when tx) = inr dt) available ->
  exists w' c txs rows,
    write_bank_file cfg available i bank w = (w', inr c)
    /\ bank_transactions cfg available i = inr txs
    /\ w_files w' !! path_join (OUTPUT_DIR cfg) (bank +:+ ".csv")
       = Some (["trx_ref_id"; "amount"; "date"] :: rows)
    /\ length rows = length txs + N.to_nat n
    /\ rows_written c = N.of_nat (length rows)
    /\ rows_written c
       = (error_rows c + matched_rows c + discrepancy_rows c
          + unmatched_rows c)%N
    /\ unmatched_rows c = n.
Proof.
  intros Hopen Hn Hnum Hall.
  destruct (write_bank_file_run cfg available i bank w n Hopen Hn Hnum Hall)
    as (w' & c & txs & rs & us & Hrun & Htxs & Hfiles & Hids & Hus & Hw & Hu & Hs).
  assert (Hlrs : length rs = length txs) by (symmetry; eapply Forall2_length, Hids).
  assert (Hlus : length us = N.to_nat n).
  { pose proof (f_equal length Hus) as Hl.
    now rewrite !length_map, range_N_length in Hl. }
  exists w', c, txs, (rs ++ us). split; [exact Hrun|]. split; [exact Htxs|].
  split; [now rewrite Hfiles, lookup_insert_eq|].
  rewrite length_app. repeat split; lia.
Qed.

(** X7. A time string that [fromisoformat] rejects stops the loop over
    the bank's transactions with [ValueError]: the rows of the readable
    transactions before it are in the file, nothing is written for it or
    for those after it. *)
Theorem unreadable_time_stops_loop (cfg : config) (csv : string)
    (before after : list transaction) (tx : transaction) (s : string)
    (c : counters) (w : world _) :
  Forall (fun tx => exists dt, tx_datetime (tx_when tx) = inr dt) before ->
  tx_when tx = TimeStr s ->
  fromisoformat s = None ->
  (rows_written c + N.of_nat (length before) < ROWS_PER_BANK cfg)%N ->
  exists w' rs,
    write_transactions cfg csv (before ++ tx :: after) c w
    = (w', inl ValueError)
    /\ w_files w' = alter (fun rows => rows ++ rs) csv (w_files w)
    /\ Forall2 (fun tx r => ref_id r = tx_id tx) before rs.
Proof.
  intros Hall Hwhen Hiso. revert c w.
  induction Hall as [|tx0 before [dt Hdt] _ IH]; intros c w Hfit; simpl.
  - simpl in Hfit.
    destruct (N.leb_spec (ROWS_PER_BANK cfg) (rows_written c)) as [?|_]; [lia|].
    rewrite (bind_raise _ _ w w ValueError).
    + exists w, []. split; [reflexivity|]. split; [apply alter_app_nil|constructor].
    + apply write_transaction_raise. unfold tx_datetime. now rewrite Hwhen, Hiso.
  - simpl in Hfit.
    destruct (N.leb_spec (ROWS_PER_BANK cfg) (rows_written c)) as [?|_]; [lia|].
    destruct (write_transaction_readable cfg csv tx0 c w dt Hdt)
      as (w1 & defect & r & Hrun & Happ & Hid & _).
    rewrite (bind_run _ _ _ _ _ Hrun).
    destruct (count_row_counts defect c) as (Hw & _).
    destruct (IH (count_row defect c) w1 ltac:(lia)) as (w' & rs & Hrest & Hfiles & Hids).
    exists w', (r :: rs). split; [exact Hrest|]. split.
    + rewrite Hfiles, Happ, alter_alter_eq. apply alter_ext.
      intros rows _. simpl. now rewrite <- app_assoc.
    + now constructor.
Qed.

(** X8. With an error rate of 1 or more every row derived from a
    transaction is defective: the iteration picks one of the four
    defects and never counts the row as matched. *)
Theorem error_rate_one_all_defective (cfg : config) (csv : string)
    (tx : transaction) (c : counters) (w : world _) (dt : datetime) :
  tx_datetime (tx_when tx) = inr dt ->
  (1 <= ERROR_RATE cfg)%Q ->
  exists w' e r,
    write_transaction cfg csv tx c w = (w', inr (count_row (Some e) c))
    /\ appended csv r w w'
    /\ e ∈ error_types
    /\ matched_rows (count_row (Some e) c) = matched_rows c.
Proof.
  intros Hdt Hrate.
  destruct (write_transaction_readable cfg csv tx c w dt Hdt)
    as (w' & defect & r & Hrun & Happ & _ & Hnone).
  destruct defect as [e|].
  - exists w', e, r. split; [exact Hrun|]. split; [exact Happ|].
    split; [destruct e; apply list_elem_of_In; simpl; tauto | destruct e; reflexivity].
  - exfalso. destruct Hnone as [Hnone _]. specialize (Hnone eq_refl).
    apply Qltb_ge in Hnone. destruct (next_random_range w) as [_ Hlt].
    apply (Qlt_not_le _ _ Hlt). eapply Qle_trans; eassumption.
Qed.

End Files.

(* ===================================================================== *)
(** * What a reader of the files gets back *)
(* ===================================================================== *)

Lemma append_inj_r (s a b : string) : s +:+ a = s +:+ b -> a = b.
Proof.
  induction s as [|ch s IH]; simpl; [auto|]. intros [= Heq]. auto.
Qed.

Lemma fake_trx_id_inj (bank : string) (i j : N) :
  fake_trx_id bank i = fake_trx_id bank j -> i = j.
Proof.
  unfold fake_trx_id. intros Heq.
  apply append_inj_r, append_inj_r, append_inj_r in Heq.
  now apply format_0d_inj in Heq.
Qed.

(** A number of cents written with two decimals reads back as itself. *)
Lemma parse_amount_cents_text (c : Z) :
  parse_amount (cents_text c) = Some (cents_value c).
Proof.
  unfold cents_text, parse_amount.
  pose proof (parse_unsigned_cents (Z.to_N (Z.abs c))) as Hp.
  rewrite Z2N.id in Hp by lia.
  set (a := Z.to_N (Z.abs c)) in *.
  destruct (Z.ltb_spec c 0) as [Hneg|Hpos].
  - rewrite list_ascii_app. change (list_ascii_of_string "-") with ["-"%char].
    simpl app. simpl Ascii.eqb. cbv iota. rewrite Hp.
    unfold cents_value, Qopp. simpl. do 2 f_equal. lia.
  - change ("" +:+ ?s) with s.
    destruct (list_ascii_of_string
                (Decimal.str_nat (a / 100) +:+ "." +:+ Decimal.format_0d 2 (a mod 100)))
      as [|c0 cs] eqn:Hcs; [discriminate|].
    destruct (Ascii.eqb_spec c0 "-") as [->|_].
    + exfalso. rewrite list_ascii_app, str_nat_chars in Hcs.
      pose proof (digits_nonempty (a / 100)) as Hne.
      pose proof (digits_acc_lt10 (S (N.to_nat (N.log2 (a / 100)))) (a / 100)) as Hlt.
      fold (Decimal.digits (a / 100)) in Hlt.
      destruct (Decimal.digits (a / 100)) as [|d ds]; [congruence|].
      simpl in Hcs. injection Hcs as Hd _.
      apply (digit_char_not d "-"); [now inversion Hlt | reflexivity | exact Hd].
    + rewrite Hp. do 2 f_equal. lia.
Qed.

Section Reading.
Context `{Externals}.


(** X10. An unmatched row holds an amount that reads back between 10.00
    and 10000.00 and a date that reads back as a date of the calendar in
    2024. *)
Theorem unmatched_row_fields (csv bank : string) (i : N) (c : counters)
    (w : world _) :
  exists w' c' r k m d,
    write_unmatched csv bank i c w = (w', inr c')
    /\ appended csv r w w'
    /\ parse_amount (amount_field r) = Some (cents_value k)
    /\ (1000 <= k <= 1000000)%Z
    /\ parse_date (date_field r) = Some (2024%N, m, d)
    /\ valid_date 2024 m d = true.
Proof.
  destruct (write_unmatched_step csv bank i c w)
    as (w' & cents & dt & Hrun & Happ & Hrange & Hv & Hy).
  destruct (valid_datetime_date dt Hv) as (Hvd & Hy' & Hm & Hday).
  exists w'. eexists. eexists. exists cents, (dt_month dt), (dt_day dt).
  split; [exact Hrun|]. split; [exact Happ|].
  split; [|split; [exact Hrange|]].
  - unfold amount_field. simpl nth. rewrite format_2f_cents.
    apply parse_amount_cents_text.
  - rewrite <- Hy. split; [|exact Hvd].
    unfold date_field. simpl nth. now apply parse_date_strftime.
Qed.

(** X11. The ids of the unmatched rows of one file are all different. *)
Theorem unmatched_ids_distinct (csv bank : string) (n : N) (c : counters)
    (w : world _) :
  exists w' c' rs,
    write_unmatched_rows csv bank (range_N 0 n) c w = (w', inr c')
    /\ w_files w' = alter (fun rows => rows ++ rs) csv (w_files w)
    /\ length rs = N.to_nat n
    /\ NoDup (map ref_id rs).
Proof.
  destruct (write_unmatched_rows_counters csv bank (range_N 0 n) c w)
    as (w' & c' & rs & Hrun & Hfiles & Hids & _).
  exists w', c', rs. split; [exact Hrun|]. split; [exact Hfiles|]. split.
  - pose proof (f_equal length Hids) as Hl.
    now rewrite !length_map, range_N_length in Hl.
  - rewrite Hids. apply NoDup_fmap_2_strong; [|apply range_N_NoDup].
    intros a b _ _. apply fake_trx_id_inj.
Qed.


End Reading.

(* ===================================================================== *)
(** * The whole run *)
(* ===================================================================== *)

Section WholeRun.
Context `{Externals}.

(** All the bank files, when each can be opened and every time in the
    pool is readable. *)
Lemma write_bank_files_run (cfg : config) (available : list transaction)
    (banks : list string) (n : N) (i : N) (w : world _) :
  (forall bank, bank ∈ banks ->
     os_open (path_join (OUTPUT_DIR cfg) (bank +:+ ".csv")) (w_dirs w) = None) ->
  (0 < NUM_BANK_FILES cfg)%N ->
  num_unmatched cfg = inr n ->
  Forall (fun tx => exists dt, tx_datetime (tx_when tx) = inr dt) available ->
  exists w' cs,
    write_bank_files cfg available i banks w = (w', inr cs)
    /\ length cs = length banks
    /\ (forall bank, bank ∈ banks ->
        exists rows,
          w_files w' !! path_join (OUTPUT_DIR cfg) (bank +:+ ".csv")
          = Some (["trx_ref_id"; "amount"; "date"] :: rows))
    /\ (forall p,
          p ∉ map (fun bank => path_join (OUTPUT_DIR cfg) (bank +:+ ".csv")) banks ->
          w_files w' !! p = w_files w !! p)
    /\ w_dirs w' = w_dirs w.
Proof.
  intros Hopen Hn Hnum Hall. revert i w Hopen.
  induction banks as [|b rest IH]; intros i w Hopen; simpl.
  - exists w, []. split; [reflexivity|]. split; [reflexivity|].
    split; [intros bank Hin; inversion Hin|]. split; reflexivity.
  - destruct (write_bank_file_run cfg available i b w n
                (Hopen b ltac:(left)) Hn Hnum Hall)
      as (w1 & c & txs & rs & us & Hrun & _ & Hfiles & _).
    pose proof (keeps_dirs_write_bank_file cfg available i b w) as D.
    rewrite Hrun in D. simpl in D.
    rewrite (bind_run _ _ _ _ _ Hrun).
    destruct (IH (i + 1)%N w1) as (w' & cs & Hrest & Hlen & Hhead & Hframe & D').
    { intros bank Hin. rewrite D. apply Hopen. now right. }
    rewrite (bind_run _ _ _ _ _ Hrest).
    exists w', (c :: cs). split; [reflexivity|]. split; [simpl; now rewrite Hlen|].
    split; [|split; [|now rewrite D', D]].
    + intros bank Hin. apply elem_of_cons in Hin as [Heq | Hin];
        [subst bank | now apply Hhead].
      destruct (decide (path_join (OUTPUT_DIR cfg) (b +:+ ".csv")
                        ∈ map (fun bank => path_join (OUTPUT_DIR cfg) (bank +:+ ".csv"))
                              rest)) as [Hdup|Hfresh].
      * apply list_elem_of_fmap in Hdup as (b' & Hb' & Hin').
        rewrite Hb'. now apply Hhead.
      * eexists. etransitivity; [exact (Hframe _ Hfresh)|].
        rewrite Hfiles. apply lookup_insert_eq.
    + intros p Hp. rewrite not_elem_of_cons in Hp. destruct Hp as [Hne Hp].
      rewrite (Hframe _ Hp), Hfiles. now rewrite lookup_insert_ne.
Qed.

(** X13. When the output directory can be made, the file of every bank
    can be opened once it exists, the database accepts every call,
    [NUM_BANK_FILES] is positive and [int(ROWS_PER_BANK * 0.05)] is some
    [n], the script runs to the end with exit status 0: the output
    directory exists, for every bank of [BANKS] there is a file that
    starts with the header, and files of other names are left as they
    were. *)
Theorem main_succeeds (cfg : config) (w : world _) (n : N) :
  os_makedirs (OUTPUT_DIR cfg) (w_dirs w) = None ->
  (forall bank, bank ∈ BANKS cfg ->
     os_open (path_join (OUTPUT_DIR cfg) (bank +:+ ".csv"))
             ({[OUTPUT_DIR cfg]} ∪ w_dirs w) = None) ->
  (forall q s, exists s' z, db_call q s = (s', inr z)) ->
  (0 < NUM_BANK_FILES cfg)%N ->
  num_unmatched cfg = inr n ->
  exists w',
    main cfg w = (w', 0%Z)
    /\ OUTPUT_DIR cfg ∈ w_dirs w'
    /\ (forall bank, bank ∈ BANKS cfg ->
        exists rows,
          w_files w' !! path_join (OUTPUT_DIR cfg) (bank +:+ ".csv")
          = Some (["trx_ref_id"; "amount"; "date"] :: rows))
    /\ (forall p,
          p ∉ map (fun bank => path_join (OUTPUT_DIR cfg) (bank +:+ ".csv"))
                  (BANKS cfg) ->
          w_files w' !! p = w_files w !! p).
Proof.
  intros Hmk Hopen Hdb Hn Hnum.
  destruct (create_postgres_transactions_run cfg w Hmk Hdb)
    as (wp & txs & Hpg & Hwf & Dp).
  pose proof (well_formed_readable _ _ Hwf) as Hread.
  destruct (shuffle_loop_run (rev (seq 1 (length txs - 1))) txs wp)
    as (ws & available & Hsh & Hperm).
  fold (shuffle txs) in Hsh.
  assert (Hread' : Forall (fun tx => exists dt, tx_datetime (tx_when tx) = inr dt)
                          available) by now rewrite Hperm.
  pose proof (keeps_files_postgres cfg w) as K1. rewrite Hpg in K1. simpl in K1.
  pose proof (keeps_files_shuffle txs wp) as K2. rewrite Hsh in K2. simpl in K2.
  pose proof (keeps_dirs_shuffle txs wp) as D2. rewrite Hsh in D2. simpl in D2.
  destruct (write_bank_files_run cfg available (BANKS cfg) n 0 ws)
    as (w' & cs & Hrun & _ & Hhead & Hframe & D3); try assumption.
  { intros bank Hin. rewrite D2, Dp. now apply Hopen. }
  exists w'. split; [|split; [|split; [exact Hhead|]]].
  - unfold main, create_bank_csv_files.
    rewrite (bind_run _ _ _ _ _ Hpg), (bind_run _ _ _ _ _ Hsh), Hrun. reflexivity.
  - rewrite D3, D2, Dp. apply elem_of_union_l, elem_of_singleton. reflexivity.
  - intros p Hp. now rewrite (Hframe p Hp), K2, K1.
Qed.


End WholeRun.



Section FileIds.
Context `{Externals}.

(** X15. Every row below the header of a bank file written to the end
    carries either the id of a transaction of the pool or one of the
    [BANK_] ids made for that bank: no other id is ever written. *)
Theorem bank_file_ids (cfg : config) (available : list transaction)
    (i : N) (bank : string) (w w' : world _) (c : counters) :
  write_bank_file cfg available i bank w = (w', inr c) ->
  exists rows n,
    w_files w' !! path_join (OUTPUT_DIR cfg) (bank +:+ ".csv")
    = Some (["trx_ref_id"; "amount"; "date"] :: rows)
    /\ num_unmatched cfg = inr n
    /\ Forall (fun r =>
                 ref_id r ∈ map tx_id available
                 \/ ref_id r ∈ map (fake_trx_id bank) (range_N 0 n)) rows.
Proof.
  intros Hrun.
  destruct (write_bank_file_rows cfg available i bank w w' c Hrun)
    as (txs & rs & us & Htxs & Hfile & Hids & n & Hnum & Hus).
  pose proof (bank_window_subset cfg available i txs Htxs) as Hsub.
  exists (rs ++ us), n. split; [exact Hfile|]. split; [exact Hnum|].
  apply Forall_app. split.
  - assert (Hsub' : take (length rs) txs ⊆ available).
    { etransitivity; [apply subseteq_take | exact Hsub]. }
    clear -Hids Hsub'. revert Hids Hsub'.
    generalize (take (length rs) txs) as window. intros window Hids.
    induction Hids as [|tx r rest rs Hid _ IH]; intros Hsub'; constructor.
    + left. rewrite Hid. apply list_elem_of_fmap_2, Hsub'. now left.
    + apply IH. intros x Hx. apply Hsub'. now right.
  - apply Forall_forall. intros r Hr. right. rewrite <- Hus.
    now apply list_elem_of_fmap_2.
Qed.

End FileIds.

(* ===================================================================== *)
(** * More worked runs *)
(* ===================================================================== *)


Lemma bank_window_bounds_witness :
  let available := [sample_debit; sample_credit] in
  (0 < NUM_BANK_FILES two_banks)%N
  /\ exists txs,
       bank_transactions two_banks available 1 = inr txs
       /\ length txs = 1
       /\ txs ⊆ available.
Proof.
  intros available. split; [reflexivity|].
  apply (bank_window_bounds two_banks available 1). reflexivity.
Defined.

Lemma zero_bank_files_error_witness :
  let w := init_world None (fun _ => half) in
  NUM_BANK_FILES no_bank_files = 0%N
  /\ BANKS no_bank_files = "bank_bca" :: []
  /\ os_open (Externals := logging_db None) "out/bank_bca.csv" (w_dirs w) = None
  /\ exists w',
       create_bank_csv_files no_bank_files [sample_debit; sample_credit] w
       = (w', inl ZeroDivisionError)
       /\ w_files w'
          = <["out/bank_bca.csv" := [["trx_ref_id"; "amount"; "date"]]]>
              (w_files w).
Proof.
  intros w. split; [reflexivity|]. split; [reflexivity|]. split; [reflexivity|].
  apply (zero_bank_files_error no_bank_files [sample_debit; sample_credit]
           "bank_bca" [] w); reflexivity.
Defined.

Lemma open_failure_propagates_witness :
  let w := fresh_world None (fun _ => half) in
  BANKS one_row = "bank_bca" :: []
  /\ os_open (Externals := logging_db None) "out/bank_bca.csv" (w_dirs w)
     = Some FileNotFoundError
  /\ exists w',
       create_bank_csv_files one_row [sample_debit] w
       = (w', inl FileNotFoundError)
       /\ w_files w' = w_files w.
Proof.
  intros w. split; [reflexivity|]. split; [reflexivity|].
  apply (open_failure_propagates one_row [sample_debit] "bank_bca" [] w
           FileNotFoundError); reflexivity.
Defined.

Lemma bank_file_unmatched_rows_witness :
  let w := init_world None (fun _ => half) in
  let available := [sample_debit; sample_credit] in
  os_open (Externals := logging_db None) "test/testdata/bank_bca.csv" (w_dirs w)
  = None
  /\ (0 < NUM_BANK_FILES default_config)%N
  /\ (ROWS_PER_BANK default_config < 2 ^ 48)%N
  /\ Forall (fun tx => exists dt,
               tx_datetime (H := logging_db None) (tx_when tx) = inr dt)
            available
  /\ exists w' c txs rs us,
       write_bank_file default_config available 0 "bank_bca" w = (w', inr c)
       /\ bank_transactions default_config available 0 = inr txs
       /\ w_files w' !! "test/testdata/bank_bca.csv"
          = Some (["trx_ref_id"; "amount"; "date"] :: rs ++ us)
       /\ Forall2 (fun tx r => ref_id r = tx_id tx) txs rs
       /\ N.of_nat (length us) = 5%N
       /\ unmatched_rows c = N.of_nat (length us)
       /\ map ref_id us
          = map (fun k => fake_trx_id "bank_bca" (N.of_nat k)) (seq 0 (length us))
       /\ Forall (fun r => forall index,
                    ref_id r <> generate_transaction_id index) us.
Proof.
  intros w available.
  assert (Hall : Forall (fun tx => exists dt,
                           tx_datetime (H := logging_db None) (tx_when tx) = inr dt)
                        available).
  { repeat constructor; eexists; reflexivity. }
  split; [reflexivity|]. split; [reflexivity|]. split; [reflexivity|].
  split; [exact Hall|].
  exact (bank_file_unmatched_rows default_config available 0 "bank_bca" w
           eq_refl eq_refl eq_refl Hall).
Defined.

Lemma bank_file_complete_witness :
  let w := init_world None (fun _ => half) in
  let available := [sample_debit; sample_credit] in
  os_open (Externals := logging_db None) "test/testdata/bank_bca.csv" (w_dirs w)
  = None
  /\ (0 < NUM_BANK_FILES default_config)%N
  /\ num_unmatched default_config = inr 5%N
  /\ Forall (fun tx => exists dt,
               tx_datetime (H := logging_db None) (tx_when tx) = inr dt)
            available
  /\ exists w' c txs rows,
       write_bank_file default_config available 0 "bank_bca" w = (w', inr c)
       /\ bank_transactions default_config available 0 = inr txs
       /\ w_files w' !! "test/testdata/bank_bca.csv"
          = Some (["trx_ref_id"; "amount"; "date"] :: rows)
       /\ length rows = length txs + 5
       /\ rows_written c = N.of_nat (length rows)
       /\ rows_written c
          = (error_rows c + matched_rows c + discrepancy_rows c
             + unmatched_rows c)%N
       /\ unmatched_rows c = 5%N.
Proof.
  intros w available.
  assert (Hall : Forall (fun tx => exists dt,
                           tx_datetime (H := logging_db None) (tx_when tx) = inr dt)
                        available).
  { repeat constructor; eexists; reflexivity. }
  split; [reflexivity|]. split; [reflexivity|]. split; [reflexivity|].
  split; [exact Hall|].
  exact (bank_file_complete default_config available 0 "bank_bca" w 5
           eq_refl eq_refl eq_refl Hall).
Defined.

Lemma unreadable_time_stops_loop_witness :
  let w := init_world None (fun _ => half) in
  Forall (fun tx => exists dt,
            tx_datetime (H := logging_db None) (tx_when tx) = inr dt)
         [sample_debit]
  /\ tx_when sample_unreadable = TimeStr "yesterday"
  /\ fromisoformat (Externals := logging_db None) "yesterday" = None
  /\ (rows_written zero_counters + N.of_nat (length [sample_debit])
      < ROWS_PER_BANK default_config)%N
  /\ exists w' rs,
       write_transactions default_config "test/testdata/bank_bca.csv"
         ([sample_debit] ++ sample_unreadable :: [sample_credit])
         zero_counters w
       = (w', inl ValueError)
       /\ w_files w'
          = alter (fun rows => rows ++ rs) "test/testdata/bank_bca.csv" (w_files w)
       /\ Forall2 (fun tx r => ref_id r = tx_id tx) [sample_debit] rs.
Proof.
  intros w.
  assert (Hall : Forall (fun tx => exists dt,
                           tx_datetime (H := logging_db None) (tx_when tx) = inr dt)
                        [sample_debit]).
  { repeat constructor; eexists; reflexivity. }
  split; [exact Hall|]. split; [reflexivity|]. split; [reflexivity|].
  split; [reflexivity|].
  exact (unreadable_time_stops_loop default_config "test/testdata/bank_bca.csv"
           [sample_debit] [sample_credit] sample_unreadable "yesterday"
           zero_counters w Hall eq_refl eq_refl eq_refl).
Defined.

Lemma error_rate_one_all_defective_witness :
  let w := init_world None (fun _ => half) in
  let dt := datetime_ymd 2024 3 9 in
  tx_datetime (H := logging_db None) (tx_when sample_debit) = inr dt
  /\ (1 <= ERROR_RATE all_defective)%Q
  /\ exists w' e r,
       write_transaction all_defective "out/bank_bca.csv" sample_debit
                         zero_counters w
       = (w', inr (count_row (Some e) zero_counters))
       /\ appended "out/bank_bca.csv" r w w'
       /\ e ∈ error_types
       /\ matched_rows (count_row (Some e) zero_counters)
          = matched_rows zero_counters.
Proof.
  intros w dt. split; [reflexivity|]. split; [discriminate|].
  apply (error_rate_one_all_defective all_defective "out/bank_bca.csv"
           sample_debit zero_counters w dt); [reflexivity | discriminate].
Defined.



Lemma main_succeeds_witness :
  let w := fresh_world None (fun _ => half) in
  os_makedirs (Externals := logging_db None) (OUTPUT_DIR default_config) (w_dirs w)
  = None
  /\ (forall bank, bank ∈ BANKS default_config ->
      os_open (Externals := logging_db None)
        (path_join (OUTPUT_DIR default_config) (bank +:+ ".csv"))
        ({[OUTPUT_DIR default_config]} ∪ w_dirs w) = None)
  /\ (forall q s, exists s' z,
        db_call (Externals := logging_db None) q s = (s', inr z))
  /\ (0 < NUM_BANK_FILES default_config)%N
  /\ num_unmatched default_config = inr 5%N
  /\ exists w',
       main default_config w = (w', 0%Z)
       /\ OUTPUT_DIR default_config ∈ w_dirs w'
       /\ (forall bank, bank ∈ BANKS default_config ->
           exists rows,
             w_files w' !! path_join (OUTPUT_DIR default_config) (bank +:+ ".csv")
             = Some (["trx_ref_id"; "amount"; "date"] :: rows))
       /\ (forall p,
             p ∉ map (fun bank =>
                        path_join (OUTPUT_DIR default_config) (bank +:+ ".csv"))
                     (BANKS default_config) ->
             w_files w' !! p = w_files w !! p).
Proof.
  intros w.
  assert (Hopen : forall bank, bank ∈ BANKS default_config ->
            os_open (Externals := logging_db None)
              (path_join (OUTPUT_DIR default_config) (bank +:+ ".csv"))
              ({[OUTPUT_DIR default_config]} ∪ w_dirs w) = None).
  { intros bank Hin. apply list_elem_of_singleton in Hin. subst bank. reflexivity. }
  assert (Hdb : forall q s, exists s' z,
             db_call (Externals := logging_db None) q s = (s', inr z)).
  { intros q s. do 2 eexists. reflexivity. }
  split; [reflexivity|]. split; [exact Hopen|]. split; [exact Hdb|].
  split; [reflexivity|]. split; [reflexivity|].
  exact (main_succeeds default_config w 5 eq_refl Hopen Hdb eq_refl eq_refl).
Defined.


Lemma bank_file_ids_witness :
  let w := init_world None (fun _ => half) in
  let available := [sample_debit; sample_credit] in
  exists w' c,
    write_bank_file default_config available 0 "bank_bca" w = (w', inr c)
    /\ exists rows n,
         w_files w' !! "test/testdata/bank_bca.csv"
         = Some (["trx_ref_id"; "amount"; "date"] :: rows)
         /\ num_unmatched default_config = inr n
         /\ Forall (fun r =>
                      ref_id r ∈ map tx_id available
                      \/ ref_id r ∈ map (fake_trx_id "bank_bca") (range_N 0 n))
                   rows.
Proof.
  intros w available.
  assert (Hall : Forall (fun tx => exists dt,
                           tx_datetime (H := logging_db None) (tx_when tx) = inr dt)
                        available).
  { repeat constructor; eexists; reflexivity. }
  destruct (write_bank_file_run default_config available 0 "bank_bca" w 5
              eq_refl eq_refl eq_refl Hall) as (w' & c & _ & _ & _ & Hrun & _).
  exists w', c. split; [exact Hrun|].
  exact (bank_file_ids default_config available 0 "bank_bca" w w' c Hrun).
Defined.

Lemma format_2f_float_witness :
  (Z.abs (-12345) <= 100000000)%Z
  /\ format_2f (b64 (cents_value (-12345))) = "-123.45".
Proof.
  split; [discriminate|]. apply (format_2f_float (-12345)). discriminate.
Defined.

Lemma created_transactions_witness :
  let w := fresh_world None (fun _ => half) in
  os_makedirs (Externals := logging_db None) (OUTPUT_DIR two_banks) (w_dirs w) = None
  /\ (forall q s, exists s' z,
        db_call (Externals := logging_db None) q s = (s', inr z))
  /\ (exists w' txs,
        create_postgres_transactions two_banks w = (w', inr txs)
        /\ length txs = 2
        /\ Forall2 (fun i tx =>
                      sequence_id (N.of_nat i) (tx_id tx)
                      /\ (exists u, (10 <= u)%Q /\ (u <= 10000)%Q
                                    /\ tx_amount tx = round_cents u)
                      /\ (10 <= cents_value (tx_amount tx))%Q
                      /\ (cents_value (tx_amount tx) <= 10000)%Q)
                   [1; 2] txs
        /\ NoDup (map tx_id txs))
  /\ exists w' txs,
       create_postgres_transactions two_banks w = (w', inr txs)
       /\ map tx_id txs = ["TRX00000001"; "TRX00000002"]
       /\ map tx_amount txs = [500500; 500500]%Z.
Proof.
  intros w.
  assert (Hdb : forall q s, exists s' z,
             db_call (Externals := logging_db None) q s = (s', inr z)).
  { intros q s. do 2 eexists. reflexivity. }
  split; [reflexivity|]. split; [exact Hdb|]. split.
  - exact (created_transactions two_banks w eq_refl Hdb).
  - do 2 eexists. split; [vm_compute; reflexivity|]. split; reflexivity.
Defined.
